(** * Rule handler: filter parsing, rule matching and action dispatch

    A shallow embedding of [packages/rule-handler/src/rule.ts]:
    [parseSearchFilter], [isValidData] and [triggerActions], together with
    the JavaScript built-ins they rely on ([String.prototype.replace] with
    the global pattern [\W \s QUOTE COLON] of [parseSearchFilter],
    [Array.prototype.every], [map], [flat], [filter] and [Promise.all]).

    Conventions.
    - A JavaScript string is the list of its UTF-16 code units.
    - A call into code that is imported by [rule.ts] (the tokenizer of
      [search-query-parser], the predicate classes of [./search_filter], the
      token provider and the four action capabilities) is a field of the
      class [Imports].  Synchronous imports return a [Completion]: they may
      return normally or throw.
    - Console output, the token request and the capability invocations are
      recorded, in program order, in a [World]: the list of effects
      performed so far.
    - A promise is described by the tick at which it settles and by how it
      settles.  Ticks are counted from the moment the dispatcher resumes
      after the token has been obtained; promises that settle at the same
      tick are ordered by their position in the array given to
      [Promise.all]. *)

From Stdlib Require Import List NArith Bool String Ascii Arith Lia.
Import ListNotations.

Set Implicit Arguments.

(** ** Strings *)

Definition jsstring := list N.

(** The code units of an ASCII literal. *)
Definition js (s : string) : jsstring :=
  map N_of_ascii (list_ascii_of_string s).

Fixpoint str_eqb (s t : jsstring) : bool :=
  match s, t with
  | [], [] => true
  | a :: s', b :: t' => N.eqb a b && str_eqb s' t'
  | _, _ => false
  end.

(** [ToBoolean] on a string: only the empty string is falsy. *)
Definition truthy (s : jsstring) : bool :=
  match s with
  | [] => false
  | _ :: _ => true
  end.

(** [ToBoolean] on an optional string ([undefined] is falsy). *)
Definition truthy_opt (o : option jsstring) : bool :=
  match o with
  | None => false
  | Some s => truthy s
  end.

(** ** The pattern [\W \s QUOTE COLON] *)

(** [\w] without the unicode or ignore-case flags: [A-Za-z0-9_]. *)
Definition isWordChar (c : N) : bool :=
  ((48 <=? c) && (c <=? 57) || (65 <=? c) && (c <=? 90)
   || (c =? 95) || (97 <=? c) && (c <=? 122))%N.

(** [\s]: the WhiteSpace and LineTerminator code points of ECMAScript. *)
Definition isWhiteSpace (c : N) : bool :=
  ((9 <=? c) && (c <=? 13) || (c =? 32) || (c =? 160) || (c =? 5760)
   || (8192 <=? c) && (c <=? 8202) || (c =? 8232) || (c =? 8233)
   || (c =? 8239) || (c =? 8287) || (c =? 12288) || (c =? 65279))%N.

Definition QUOTE : N := 34.
Definition COLON : N := 58.

(** The four code units [a b c d] match the pattern. *)
Definition stray (a b c d : N) : bool :=
  negb (isWordChar a) && isWhiteSpace b && N.eqb c QUOTE && N.eqb d COLON.

(** The pattern matches at the start of [s]. *)
Definition strayAt (s : jsstring) : bool :=
  match s with
  | a :: b :: c :: d :: _ => stray a b c d
  | _ => false
  end.

(** [String.prototype.replace] with that global pattern and the empty
    replacement: scanning from the left, every match is
    removed and the scan resumes after it. *)
Fixpoint replace_stray (s : jsstring) : jsstring :=
  match s with
  | [] => []
  | a :: tl =>
      match tl with
      | b :: c :: d :: rest =>
          if stray a b c d then replace_stray rest else a :: replace_stray tl
      | _ => a :: tl
      end
  end.

(** The pattern occurs somewhere in [s]. *)
Fixpoint occurs (s : jsstring) : bool :=
  match s with
  | [] => false
  | _ :: tl => strayAt s || occurs tl
  end.

(** A left-to-right scan of [s] that removes pattern matches: at each
    position either the pattern matches there and its four code units are
    removed, or it does not and the code unit is kept. *)
Inductive Strips : jsstring -> jsstring -> Prop :=
| Strips_nil : Strips [] []
| Strips_keep a tl r :
    strayAt (a :: tl) = false -> Strips tl r -> Strips (a :: tl) (a :: r)
| Strips_cut a b c d rest r :
    stray a b c d = true -> Strips rest r -> Strips (a :: b :: c :: d :: rest) r.

(** ** Completions, promises and effects *)

Inductive Completion (E A : Type) : Type :=
| Normal (a : A)
| Throw (e : E).

Arguments Normal {E A} a.
Arguments Throw {E A} e.

Record Promise (E A : Type) : Type := mkPromise {
  settleAt : nat;
  outcome : Completion E A
}.

(** ** Data model of [rule.ts] *)

Inductive RuleActionType : Type :=
| AddLabel
| Archive
| MarkAsRead
| SendNotification.

Record RuleAction : Type := mkRuleAction {
  action_type : RuleActionType;
  action_params : list jsstring
}.

Record Rule : Type := mkRule {
  rule_id : jsstring;
  rule_userId : jsstring;
  rule_name : jsstring;
  rule_filter : jsstring;
  rule_actions : list RuleAction;
  rule_description : option jsstring;
  rule_enabled : bool;
  rule_createdAt : N;
  rule_updatedAt : N
}.

(** The predicate objects built by the parser: one class per variant, each
    constructed from the token's value. *)
Inductive SearchFilter : Type :=
| SubscriptionFilter (value : jsstring)
| ContentFilter (value : jsstring)
| ReadFilter (value : jsstring).

(** ** The tokenizer's interface ([search-query-parser]) *)

Record SearchParserOptions : Type := mkOptions {
  keywords : list jsstring;
  tokenize : bool
}.

Record SearchParserKeyWordOffset : Type := mkKeyWordOffset {
  keyword : jsstring;
  value : option jsstring;
  kw_offsetStart : N;
  kw_offsetEnd : N
}.

Record SearchParserTextOffset : Type := mkTextOffset {
  text : jsstring;
  tx_offsetStart : N;
  tx_offsetEnd : N
}.

Inductive SearchParserOffset : Type :=
| KeyWordOffset (k : SearchParserKeyWordOffset)
| TextOffset (t : SearchParserTextOffset).

Record SearchParserResult : Type := mkResult {
  offsets : option (list SearchParserOffset)
}.

(** ** Effects *)

Inductive CapCall : Type :=
| AddLabels (apiEndpoint auth pageId : jsstring) (labels : list jsstring)
| ArchivePage (apiEndpoint auth pageId : jsstring)
| MarkPageAsRead (apiEndpoint auth pageId : jsstring)
| SendNotificationCall (apiEndpoint auth message : jsstring).

Inductive Effect : Type :=
| ConsoleDebug (msg : jsstring)
| ConsoleLog (msg : jsstring)
| TokenRequest (userId jwtSecret : jsstring)
| Invoke (c : CapCall).

Definition World := list Effect.

(** ** What [rule.ts] imports *)

Class Imports : Type := {
  (** thrown values and the values capabilities resolve to *)
  Error : Type;
  Value : Type;
  (** [PubSubData] of [./index] and its optional field [id] *)
  PubSubData : Type;
  data_id : PubSubData -> option jsstring;
  (** [parse] of [search-query-parser] *)
  parse : jsstring -> SearchParserOptions -> Completion Error SearchParserResult;
  (** the method [isValid] of the classes of [./search_filter] *)
  isValid : SearchFilter -> PubSubData -> Completion Error bool;
  (** [getAuthToken] of [./index], as observed by [await] *)
  getAuthToken : jsstring -> jsstring -> Completion Error jsstring;
  (** the capabilities of [./label], [./page] and [./notification] *)
  addLabels : jsstring -> jsstring -> jsstring -> list jsstring -> Promise Error Value;
  archivePage : jsstring -> jsstring -> jsstring -> Promise Error Value;
  markPageAsRead : jsstring -> jsstring -> jsstring -> Promise Error Value;
  sendNotification : jsstring -> jsstring -> jsstring -> Promise Error Value
}.

(** ** Synchronous code: state and exceptions *)

Section Handler.

Context {I : Imports}.

Definition M (A : Type) : Type := World -> Completion Error A * World.

Definition ret {A : Type} (a : A) : M A := fun w => (Normal a, w).

Definition bind {A B : Type} (m : M A) (k : A -> M B) : M B :=
  fun w =>
    match m w with
    | (Normal a, w') => k a w'
    | (Throw e, w') => (Throw e, w')
    end.

Notation "x <- m ;; k" := (bind m (fun x => k))
  (at level 61, m at next level, right associativity).

(** A synchronous import that may throw, run inside [M]. *)
Definition lift {A : Type} (c : Completion Error A) : M A := fun w => (c, w).

Definition perform (e : Effect) : M unit := fun w => (Normal tt, w ++ [e]).

(** [Array.prototype.map] with an effectful callback: the elements are
    visited in order and a throw leaves the loop. *)
Fixpoint mapM {A B : Type} (f : A -> M B) (l : list A) : M (list B) :=
  match l with
  | [] => ret []
  | x :: l' =>
      y <- f x ;;
      ys <- mapM f l' ;;
      ret (y :: ys)
  end.

(** ** [parseSearchFilter] *)

Definition ruleKeywords : list jsstring :=
  [js "subscription"; js "content"; js "is"; js "type"].

(** [offsets.filter((offset) => 'keyword' in offset).map(...)] *)
Definition keywordOffsets (offs : list SearchParserOffset)
  : list SearchParserKeyWordOffset :=
  flat_map (fun o => match o with
                     | KeyWordOffset k => [k]
                     | TextOffset _ => []
                     end) offs.

(** The [switch] on [keyword.keyword]: the predicate to push, if any. *)
Definition filterOf (kw v : jsstring) : option SearchFilter :=
  if str_eqb kw (js "subscription") then Some (SubscriptionFilter v)
  else if str_eqb kw (js "content") then Some (ContentFilter v)
  else if str_eqb kw (js "is") then Some (ReadFilter v)
  else if str_eqb kw (js "type") then Some (ReadFilter v)
  else None.

(** One iteration of the [for ... of] loop over the keyword offsets. *)
Definition pushKeyword (result : list SearchFilter)
  (k : SearchParserKeyWordOffset) : list SearchFilter :=
  match value k with
  | None => result
  | Some v =>
      if truthy v then
        match filterOf (keyword k) v with
        | Some f => result ++ [f]
        | None => result
        end
      else result
  end.

Definition parseSearchFilter (filter : jsstring)
  : Completion Error (list SearchFilter) :=
  let searchFilter :=
    if truthy filter then Some (replace_stray filter) else None in
  let result : list SearchFilter := [] in
  match searchFilter with
  | None => Normal result
  | Some sf =>
      if negb (truthy sf) || str_eqb sf (js "*") then Normal result
      else
        match parse sf (mkOptions ruleKeywords true) with
        | Throw e => Throw e
        | Normal parsed =>
            match offsets parsed with
            | Some offs =>
                Normal (fold_left pushKeyword (keywordOffsets offs) result)
            | None => Normal result
            end
        end
  end.

(** ** [isValidData] *)

(** [Array.prototype.every] with the callback [isValid(data)]: stops at the
    first predicate that answers false, or throws. *)
Fixpoint every (fs : list SearchFilter) (data : PubSubData)
  : Completion Error bool :=
  match fs with
  | [] => Normal true
  | f :: fs' =>
      match isValid f data with
      | Throw e => Throw e
      | Normal true => every fs' data
      | Normal false => Normal false
      end
  end.

Definition isValidData (filter : jsstring) (data : PubSubData) : M bool :=
  searchFilters <- lift (parseSearchFilter filter) ;;
  if Nat.eqb (List.length searchFilters) 0 then
    _ <- perform (ConsoleDebug (js "no search filters found")) ;;
    ret true
  else lift (every searchFilters data).

(** ** [Promise.all] *)

(** The rejection [Promise.all] reports: that of the promise that rejects
    first (the earliest position among those rejecting at the same tick). *)
Fixpoint firstRejection {A : Type} (ps : list (Promise Error A))
  : option (nat * Error) :=
  match ps with
  | [] => None
  | p :: ps' =>
      match outcome p with
      | Normal _ => firstRejection ps'
      | Throw e =>
          match firstRejection ps' with
          | Some (t, e') =>
              if settleAt p <=? t then Some (settleAt p, e) else Some (t, e')
          | None => Some (settleAt p, e)
          end
      end
  end.

(** The values of the fulfilled promises, in array order. *)
Definition fulfilledValues {A : Type} (ps : list (Promise Error A)) : list A :=
  flat_map (fun p => match outcome p with
                     | Normal v => [v]
                     | Throw _ => []
                     end) ps.

(** The tick at which the last promise of [ps] settles. *)
Definition lastSettle {A : Type} (ps : list (Promise Error A)) : nat :=
  fold_right (fun p t => Nat.max (settleAt p) t) 0 ps.

Definition Promise_all {A : Type} (ps : list (Promise Error A))
  : Promise Error (list A) :=
  match firstRejection ps with
  | Some (t, e) => mkPromise t (Throw e)
  | None => mkPromise (lastSettle ps) (Normal (fulfilledValues ps))
  end.

(** An [async] function whose body, once resumed, runs synchronously and
    returns a promise: the result adopts that promise, and a throw in the
    body rejects the result at once. *)
Definition async {A : Type} (body : M (Promise Error A))
  : World -> Promise Error A * World :=
  fun w =>
    match body w with
    | (Normal p, w') => (p, w')
    | (Throw e, w') => (mkPromise 0 (Throw e), w')
    end.

(** ** [triggerActions] *)

(** The capability a call record stands for. *)
Definition run (c : CapCall) : Promise Error Value :=
  match c with
  | AddLabels a t i l => addLabels a t i l
  | ArchivePage a t i => archivePage a t i
  | MarkPageAsRead a t i => markPageAsRead a t i
  | SendNotificationCall a t m => sendNotification a t m
  end.

(** Calling a capability: the call is recorded and its promise returned. *)
Definition invoke (c : CapCall) : M (option (Promise Error Value)) :=
  _ <- perform (Invoke c) ;;
  ret (Some (run c)).

(** [console.log(msg); return] *)
Definition skip (msg : string) : M (option (Promise Error Value)) :=
  _ <- perform (ConsoleLog (js msg)) ;;
  ret None.

(** The callback of [rule.actions.map]. *)
Definition actionCallback (apiEndpoint authToken : jsstring)
  (data : PubSubData) (action : RuleAction)
  : M (option (Promise Error Value)) :=
  match action_type action with
  | AddLabel =>
      match data_id data with
      | Some i =>
          if negb (truthy i) || Nat.eqb (List.length (action_params action)) 0
          then skip "invalid data for add label action"
          else invoke (AddLabels apiEndpoint authToken i (action_params action))
      | None => skip "invalid data for add label action"
      end
  | Archive =>
      match data_id data with
      | Some i =>
          if negb (truthy i) then skip "invalid data for archive action"
          else invoke (ArchivePage apiEndpoint authToken i)
      | None => skip "invalid data for archive action"
      end
  | MarkAsRead =>
      match data_id data with
      | Some i =>
          if negb (truthy i) then skip "invalid data for mark as read action"
          else invoke (MarkPageAsRead apiEndpoint authToken i)
      | None => skip "invalid data for mark as read action"
      end
  | SendNotification =>
      invoke (SendNotificationCall apiEndpoint authToken
                (js "New page added to your feed"))
  end.

(** The callback of [rules.map]. *)
Definition ruleCallback (apiEndpoint authToken : jsstring)
  (data : PubSubData) (rule : Rule)
  : M (option (list (option (Promise Error Value)))) :=
  valid <- isValidData (rule_filter rule) data ;;
  if negb valid then ret None
  else
    ps <- mapM (actionCallback apiEndpoint authToken data) (rule_actions rule) ;;
    ret (Some ps).

(** [Array.prototype.flat] on an array whose elements are arrays or
    [undefined]: arrays are spliced in, [undefined] stays an element. *)
Definition flat {A : Type} (l : list (option (list (option A))))
  : list (option A) :=
  flat_map (fun x => match x with
                     | Some arr => arr
                     | None => [None]
                     end) l.

(** [.filter((p) => p !== undefined)] *)
Definition defined {A : Type} (l : list (option A)) : list A :=
  flat_map (fun x => match x with
                     | Some p => [p]
                     | None => []
                     end) l.

Definition triggerActions (userId : jsstring) (rules : list Rule)
  (data : PubSubData) (apiEndpoint jwtSecret : jsstring)
  : World -> Promise Error (list Value) * World :=
  async (
    _ <- perform (TokenRequest userId jwtSecret) ;;
    authToken <- lift (getAuthToken userId jwtSecret) ;;
    actionPromises <- mapM (ruleCallback apiEndpoint authToken data) rules ;;
    ret (Promise_all (defined (flat actionPromises)))).

End Handler.

(** ** What the claims speak about *)

Section Vocabulary.

Context {I : Imports}.

(** The options [parseSearchFilter] gives the tokenizer. *)
Definition ruleOptions : SearchParserOptions := mkOptions ruleKeywords true.

(** The predicates [parseSearchFilter] builds from the tokenizer's answer. *)
Definition collect (parsed : SearchParserResult) : list SearchFilter :=
  match offsets parsed with
  | Some offs => fold_left pushKeyword (keywordOffsets offs) []
  | None => []
  end.

(** Parsing a text that is taken as it is: the shortcut for the empty text
    and the wildcard, the tokenizer otherwise. *)
Definition tokenized (text : jsstring) : Completion Error (list SearchFilter) :=
  if negb (truthy text) || str_eqb text (js "*") then Normal []
  else
    match parse text ruleOptions with
    | Throw e => Throw e
    | Normal parsed => Normal (collect parsed)
    end.

(** The offsets of a tokenizer answer ([offsets] may be missing). *)
Definition tokens (parsed : SearchParserResult) : list SearchParserOffset :=
  match offsets parsed with
  | Some offs => offs
  | None => []
  end.

(** The two keywords of the read-state predicate. *)
Definition readKeyword (k : jsstring) : bool :=
  str_eqb k (js "is") || str_eqb k (js "type").

(** Two offsets that stand for the same token up to the spelling of the
    read-state keyword and up to their positions in the text: two keyword
    offsets with the same value whose keywords are equal or both name the
    read state, or two text offsets. *)
Inductive sameToken : SearchParserOffset -> SearchParserOffset -> Prop :=
| sameToken_read k1 k2 :
    readKeyword (keyword k1) = true ->
    readKeyword (keyword k2) = true ->
    value k1 = value k2 ->
    sameToken (KeyWordOffset k1) (KeyWordOffset k2)
| sameToken_keyword k1 k2 :
    keyword k1 = keyword k2 ->
    value k1 = value k2 ->
    sameToken (KeyWordOffset k1) (KeyWordOffset k2)
| sameToken_text t1 t2 : sameToken (TextOffset t1) (TextOffset t2).

(** The match decision for a rule and the diagnostics it prints. *)
Definition decision (data : PubSubData) (rule : Rule) : Completion Error bool :=
  fst (isValidData (rule_filter rule) data []).

Definition diagnostics (data : PubSubData) (rule : Rule) : list Effect :=
  snd (isValidData (rule_filter rule) data []).

Definition returnsNormally {A : Type} (c : Completion Error A) : bool :=
  match c with
  | Normal _ => true
  | Throw _ => false
  end.

Definition matches (data : PubSubData) (rule : Rule) : bool :=
  match decision data rule with
  | Normal b => b
  | Throw _ => false
  end.

(** Rule matching returns (does not throw) for every rule of the batch. *)
Definition matchingReturns (data : PubSubData) (rules : list Rule) : bool :=
  forallb (fun r => returnsNormally (decision data r)) rules.

(** The capability calls recorded in a list of effects, in order. *)
Definition invokedCalls (w : list Effect) : list CapCall :=
  flat_map (fun e => match e with
                     | Invoke c => [c]
                     | _ => []
                     end) w.

(** The credential a capability call carries. *)
Definition credentialOf (c : CapCall) : jsstring :=
  match c with
  | AddLabels _ t _ _ => t
  | ArchivePage _ t _ => t
  | MarkPageAsRead _ t _ => t
  | SendNotificationCall _ t _ => t
  end.

(** The dispatcher's precondition table, in the words of the
    specification with the item identifier read as a non-empty string:
    the call an action is eligible for, if any. *)
Definition eligibleCall (apiEndpoint authToken : jsstring)
  (data : PubSubData) (action : RuleAction) : option CapCall :=
  match action_type action, data_id data with
  | AddLabel, Some (c :: i) =>
      match action_params action with
      | [] => None
      | _ :: _ =>
          Some (AddLabels apiEndpoint authToken (c :: i) (action_params action))
      end
  | Archive, Some (c :: i) => Some (ArchivePage apiEndpoint authToken (c :: i))
  | MarkAsRead, Some (c :: i) =>
      Some (MarkPageAsRead apiEndpoint authToken (c :: i))
  | SendNotification, _ =>
      Some (SendNotificationCall apiEndpoint authToken
              (js "New page added to your feed"))
  | _, _ => None
  end.

(** The diagnostic printed when an action of the given type is skipped. *)
Definition skipMessage (t : RuleActionType) : jsstring :=
  match t with
  | AddLabel => js "invalid data for add label action"
  | Archive => js "invalid data for archive action"
  | MarkAsRead => js "invalid data for mark as read action"
  | SendNotification => []
  end.

(** The calls the dispatcher is expected to make for a batch of rules. *)
Definition eligibleCalls (apiEndpoint authToken : jsstring)
  (data : PubSubData) (rules : list Rule) : list CapCall :=
  flat_map (fun r =>
              if matches data r then
                flat_map (fun a =>
                            match eligibleCall apiEndpoint authToken data a with
                            | Some c => [c]
                            | None => []
                            end) (rule_actions r)
              else []) rules.

(** The effects of one action of a matching rule, and of one rule. *)
Definition actionEffects (apiEndpoint authToken : jsstring)
  (data : PubSubData) (action : RuleAction) : list Effect :=
  snd (actionCallback apiEndpoint authToken data action []).

Definition ruleEffects (apiEndpoint authToken : jsstring)
  (data : PubSubData) (rule : Rule) : list Effect :=
  diagnostics data rule ++
  (if matches data rule
   then flat_map (actionEffects apiEndpoint authToken data) (rule_actions rule)
   else []).

(** The promises of the actions a rule is expected to attempt. *)
Definition attempts (apiEndpoint authToken : jsstring)
  (data : PubSubData) (rule : Rule) : list (option (Promise Error Value)) :=
  map (fun a => option_map run (eligibleCall apiEndpoint authToken data a))
    (rule_actions rule).

(** A computation whose result does not depend on the effects performed
    before it and which only appends its own. *)
Definition framed {A : Type} (m : M A) : Prop :=
  forall w, m w = (fst (m []), w ++ snd (m [])).

(** An effect of the dispatcher's loop that is compatible with a single
    credential [tok]: no further token request, and capability calls carry
    [tok]. *)
Definition usesToken (tok : jsstring) (e : Effect) : Prop :=
  match e with
  | TokenRequest _ _ => False
  | Invoke c => credentialOf c = tok
  | _ => True
  end.

(** The isolation of failures as the specification words it, for a
    dispatch started with no earlier effects: the dispatch settles no
    earlier than the last action it attempted and fulfils with one outcome
    per attempted action. *)
Definition reportsEveryOutcome (userId : jsstring) (rules : list Rule)
  (data : PubSubData) (apiEndpoint jwtSecret : jsstring) : Prop :=
  let r := triggerActions userId rules data apiEndpoint jwtSecret [] in
  let attempted := map run (invokedCalls (snd r)) in
  lastSettle attempted <= settleAt (fst r) /\
  exists vs, outcome (fst r) = Normal vs /\
             List.length vs = List.length attempted.

End Vocabulary.

(** ** Further vocabulary: tokens, calls and the effects of one dispatch *)

(** A double quote directly followed by a colon occurs in [s]. *)
Fixpoint quoteColon (s : jsstring) : bool :=
  match s with
  | [] => false
  | a :: tl =>
      match tl with
      | [] => false
      | b :: _ => (N.eqb a QUOTE && N.eqb b COLON) || quoteColon tl
      end
  end.

(** The pattern in the words of the specification: somewhere in [s] a
    code unit that is not a word character stands directly before or
    directly after a double quote or a colon. *)
Definition quoteOrColon (c : N) : bool := N.eqb c QUOTE || N.eqb c COLON.

Fixpoint strayPunctuation (s : jsstring) : bool :=
  match s with
  | [] => false
  | a :: tl =>
      match tl with
      | [] => false
      | b :: _ =>
          (negb (isWordChar a) && quoteOrColon b)
          || (quoteOrColon a && negb (isWordChar b))
          || strayPunctuation tl
      end
  end.

Section Coverage.

Context {I : Imports}.

(** The text is handled without the tokenizer: it is empty or the wildcard. *)
Definition shortcut (text : jsstring) : bool :=
  negb (truthy text) || str_eqb text (js "*").

(** A keyword offset the loop of [parseSearchFilter] turns into a
    predicate: its value is a non-empty string and its keyword is one of
    the four the tokenizer is asked for. *)
Definition usable (k : SearchParserKeyWordOffset) : bool :=
  truthy_opt (value k) && existsb (str_eqb (keyword k)) ruleKeywords.

(** The value a predicate was constructed with. *)
Definition valueOf (p : SearchFilter) : jsstring :=
  match p with
  | SubscriptionFilter v => v
  | ContentFilter v => v
  | ReadFilter v => v
  end.

(** The endpoint a capability call is addressed to. *)
Definition endpointOf (c : CapCall) : jsstring :=
  match c with
  | AddLabels a _ _ _ => a
  | ArchivePage a _ _ => a
  | MarkPageAsRead a _ _ => a
  | SendNotificationCall a _ _ => a
  end.

(** A capability call made for the event [data] with the given endpoint
    and credential: page calls target the event's identifier, which is not
    empty, labels are not empty, and a notification has the fixed text. *)
Definition wellFormedCall (apiEndpoint authToken : jsstring)
  (data : PubSubData) (c : CapCall) : Prop :=
  endpointOf c = apiEndpoint /\ credentialOf c = authToken /\
  match c with
  | AddLabels _ _ i l => data_id data = Some i /\ i <> [] /\ l <> []
  | ArchivePage _ _ i => data_id data = Some i /\ i <> []
  | MarkPageAsRead _ _ i => data_id data = Some i /\ i <> []
  | SendNotificationCall _ _ m => m = js "New page added to your feed"
  end.

(** The effects one dispatch adds to those performed before it. *)
Definition dispatchEffects (userId : jsstring) (rules : list Rule)
  (data : PubSubData) (apiEndpoint jwtSecret : jsstring) (w : World)
  : list Effect :=
  skipn (List.length w)
    (snd (triggerActions userId rules data apiEndpoint jwtSecret w)).

End Coverage.

(** ** [resultResolveTypeResolver] of [function_resolvers.ts] *)

Module Resolvers.

(** The [__resolveType] function: [errorCodes] is an array or [undefined],
    and every array, the empty one included, is truthy. *)
Definition resolveType (resolverName : jsstring)
  (errorCodes : option (list jsstring)) : jsstring :=
  match errorCodes with
  | Some _ => resolverName ++ js "Error"
  | None => resolverName ++ js "Success"
  end.

(** The one-entry object the function returns: its computed key and the
    [__resolveType] function stored under it. *)
Definition resultResolveTypeResolver (resolverName : jsstring)
  : jsstring * (option (list jsstring) -> jsstring) :=
  (resolverName ++ js "Result", resolveType resolverName).

End Resolvers.

(** ** A concrete environment for examples *)

Module Fixture.

Record Event : Type := mkEvent {
  itemId : option jsstring;
  readState : jsstring
}.

(** Splits [k:v] at its first colon. *)
Fixpoint splitColon (s : jsstring) : option (jsstring * jsstring) :=
  match s with
  | [] => None
  | c :: s' =>
      if N.eqb c COLON then Some ([], s')
      else match splitColon s' with
           | Some (k, v) => Some (c :: k, v)
           | None => None
           end
  end.

(** A one-token tokenizer: [k:v] is a keyword token when [k] is one of the
    keywords asked for, and a text token otherwise. *)
Definition tokenizer (s : jsstring) (o : SearchParserOptions)
  : Completion jsstring SearchParserResult :=
  let whole := TextOffset (mkTextOffset s 0 (N.of_nat (List.length s))) in
  match splitColon s with
  | Some (k, v) =>
      if existsb (str_eqb k) (keywords o)
      then Normal (mkResult (Some [KeyWordOffset
             (mkKeyWordOffset k (Some v) 0 (N.of_nat (List.length s)))]))
      else Normal (mkResult (Some [whole]))
  | None => Normal (mkResult (Some [whole]))
  end.

(** Only the read-state predicate is exercised by the examples. *)
Definition check (f : SearchFilter) (e : Event) : Completion jsstring bool :=
  match f with
  | ReadFilter v => Normal (str_eqb v (readState e))
  | SubscriptionFilter _ => Normal false
  | ContentFilter _ => Normal false
  end.

(** Archiving fails after one tick; the other capabilities succeed later. *)
Definition imports : Imports := {|
  Error := jsstring;
  Value := jsstring;
  PubSubData := Event;
  data_id := itemId;
  parse := tokenizer;
  isValid := check;
  getAuthToken := fun _ _ => Normal (js "token");
  addLabels := fun _ _ _ _ => mkPromise 2 (Normal (js "labelled"));
  archivePage := fun _ _ _ => mkPromise 1 (Throw (js "archive failed"));
  markPageAsRead := fun _ _ _ => mkPromise 3 (Normal (js "read"));
  sendNotification := fun _ _ _ => mkPromise 5 (Normal (js "sent"))
|}.

(** The same environment with a token provider that refuses. *)
Definition denied : Imports := {|
  Error := jsstring;
  Value := jsstring;
  PubSubData := Event;
  data_id := itemId;
  parse := tokenizer;
  isValid := check;
  getAuthToken := fun _ _ => Throw (js "denied");
  addLabels := fun _ _ _ _ => mkPromise 2 (Normal (js "labelled"));
  archivePage := fun _ _ _ => mkPromise 1 (Throw (js "archive failed"));
  markPageAsRead := fun _ _ _ => mkPromise 3 (Normal (js "read"));
  sendNotification := fun _ _ _ => mkPromise 5 (Normal (js "sent"))
|}.

(** The same environment with a content predicate that throws. *)
Definition fragileCheck (f : SearchFilter) (e : Event)
  : Completion jsstring bool :=
  match f with
  | ContentFilter _ => Throw (js "no content")
  | _ => check f e
  end.

Definition fragile : Imports := {|
  Error := jsstring;
  Value := jsstring;
  PubSubData := Event;
  data_id := itemId;
  parse := tokenizer;
  isValid := fragileCheck;
  getAuthToken := fun _ _ => Normal (js "token");
  addLabels := fun _ _ _ _ => mkPromise 2 (Normal (js "labelled"));
  archivePage := fun _ _ _ => mkPromise 1 (Throw (js "archive failed"));
  markPageAsRead := fun _ _ _ => mkPromise 3 (Normal (js "read"));
  sendNotification := fun _ _ _ => mkPromise 5 (Normal (js "sent"))
|}.

Definition unreadItem : Event := mkEvent (Some (js "abc")) (js "unread").
Definition readItem : Event := mkEvent (Some (js "abc")) (js "read").
Definition blankIdItem : Event := mkEvent (Some []) (js "unread").

Definition ruleOf (filter : string) (acts : list RuleAction) : Rule :=
  mkRule (js "r1") (js "u1") (js "rule") (js filter) acts None true 0 0.

End Fixture.

(** ** A second environment, with filters of several tokens *)

Module Inbox.

Record Item : Type := mkItem {
  itemId : option jsstring;
  source : jsstring;
  state : jsstring;
  body : jsstring
}.

Definition SPACE : N := 32.

(** The runs of a text between spaces (empty runs included). *)
Fixpoint words (s : jsstring) : list jsstring :=
  match s with
  | [] => [[]]
  | c :: s' =>
      if N.eqb c SPACE then [] :: words s'
      else match words s' with
           | w :: ws => (c :: w) :: ws
           | [] => [[c]]
           end
  end.

(** One offset per non-empty run, with its position in the text: [k:v] is
    a keyword offset when [k] is one of the keywords asked for, and a text
    offset otherwise. *)
Fixpoint offsetsFrom (o : SearchParserOptions) (pos : N) (ws : list jsstring)
  : list SearchParserOffset :=
  match ws with
  | [] => []
  | w :: ws' =>
      let stop := (pos + N.of_nat (List.length w))%N in
      let rest := offsetsFrom o (stop + 1)%N ws' in
      match w with
      | [] => rest
      | _ :: _ =>
          match Fixture.splitColon w with
          | Some (k, v) =>
              if existsb (str_eqb k) (keywords o)
              then KeyWordOffset (mkKeyWordOffset k (Some v) pos stop) :: rest
              else TextOffset (mkTextOffset w pos stop) :: rest
          | None => TextOffset (mkTextOffset w pos stop) :: rest
          end
      end
  end.

Definition tokenizer (s : jsstring) (o : SearchParserOptions)
  : Completion jsstring SearchParserResult :=
  Normal (mkResult (Some (offsetsFrom o 0 (words s)))).

(** Each predicate compares its value with one attribute of the item. *)
Definition check (f : SearchFilter) (e : Item) : Completion jsstring bool :=
  match f with
  | SubscriptionFilter v => Normal (str_eqb v (source e))
  | ContentFilter v => Normal (str_eqb v (body e))
  | ReadFilter v => Normal (str_eqb v (state e))
  end.

Definition imports : Imports := {|
  Error := jsstring;
  Value := jsstring;
  PubSubData := Item;
  data_id := itemId;
  parse := tokenizer;
  isValid := check;
  getAuthToken := fun _ _ => Normal (js "token");
  addLabels := fun _ _ _ _ => mkPromise 2 (Normal (js "labelled"));
  archivePage := fun _ _ _ => mkPromise 1 (Normal (js "archived"));
  markPageAsRead := fun _ _ _ => mkPromise 3 (Normal (js "read"));
  sendNotification := fun _ _ _ => mkPromise 5 (Normal (js "sent"))
|}.


Definition unreadNews : Item :=
  mkItem (Some (js "abc")) (js "News") (js "unread") (js "hello").
Definition readNews : Item :=
  mkItem (Some (js "abc")) (js "News") (js "read") (js "hello").

End Inbox.

(** ** Strings and sanitization *)

(** A match is removed together with its quote and colon. *)
Example replace_stray_removes_a_match :
  replace_stray (js "content" ++ [33; 32; QUOTE; COLON] ++ js "x")%N
  = js "contentx".
Proof. reflexivity. Qed.

(** A quoted keyword filter contains no match and is left alone. *)
Example replace_stray_keeps_a_quoted_filter :
  replace_stray (js "subscription:" ++ [QUOTE] ++ js "Daily News" ++ [QUOTE])
  = js "subscription:" ++ [QUOTE] ++ js "Daily News" ++ [QUOTE].
Proof. reflexivity. Qed.

(** Matches are taken from the left and do not overlap: the colon that
    ends the first match is not reused as the start of a second one. *)
Example replace_stray_is_leftmost :
  replace_stray [33; 32; QUOTE; COLON; 32; QUOTE; COLON]%N
  = [32; QUOTE; COLON]%N.
Proof. reflexivity. Qed.

Lemma str_eqb_eq (s t : jsstring) : str_eqb s t = true <-> s = t.
Proof.
  revert t; induction s as [|a s IH]; intros [|b t]; simpl; split;
    try congruence; try reflexivity.
  - intros H. apply andb_true_iff in H as [Hab Hst].
    apply N.eqb_eq in Hab. apply IH in Hst. congruence.
  - intros H. injection H as -> ->. rewrite N.eqb_refl. simpl.
    now apply IH.
Qed.

Lemma str_eqb_refl (s : jsstring) : str_eqb s s = true.
Proof. now apply str_eqb_eq. Qed.

Lemma occurs_spec (s : jsstring) :
  occurs s = true <-> exists pre post, s = pre ++ post /\ strayAt post = true.
Proof.
  induction s as [|a s IH].
  - simpl. split; [discriminate|].
    intros (pre & post & E & H). symmetry in E.
    apply app_eq_nil in E as [_ ->]. discriminate.
  - cbn [occurs]. rewrite orb_true_iff, IH. split.
    + intros [H | (pre & post & -> & H)].
      * now exists [], (a :: s).
      * now exists (a :: pre), post.
    + intros (pre & post & E & H). destruct pre as [|b pre]; simpl in E.
      * left. now subst post.
      * right. injection E as _ ->. now exists pre, post.
Qed.

Lemma replace_stray_keep (a : N) (tl : jsstring) :
  strayAt (a :: tl) = false -> replace_stray (a :: tl) = a :: replace_stray tl.
Proof.
  destruct tl as [|b [|c [|d rest]]]; try reflexivity.
  cbn [strayAt replace_stray]. intros ->. reflexivity.
Qed.

Lemma replace_stray_cut (a b c d : N) (rest : jsstring) :
  stray a b c d = true ->
  replace_stray (a :: b :: c :: d :: rest) = replace_stray rest.
Proof. cbn [replace_stray]. intros ->. reflexivity. Qed.

Lemma replace_stray_id (s : jsstring) : occurs s = false -> replace_stray s = s.
Proof.
  induction s as [|a s IH]; [reflexivity|].
  cbn [occurs]. intros H. apply orb_false_iff in H as [Hat Hocc].
  rewrite replace_stray_keep by assumption. now rewrite IH.
Qed.

Lemma Strips_replace_stray (s : jsstring) : Strips s (replace_stray s).
Proof.
  remember (List.length s) as n eqn:Hn.
  revert s Hn. induction n as [n IH] using lt_wf_ind. intros s Hn.
  destruct s as [|a tl]; [constructor|].
  destruct (strayAt (a :: tl)) eqn:Hat.
  - destruct tl as [|b [|c [|d rest]]]; try discriminate.
    cbn [strayAt] in Hat. rewrite replace_stray_cut by assumption.
    apply Strips_cut; [assumption|].
    eapply IH; [|reflexivity]. subst n. simpl. lia.
  - rewrite replace_stray_keep by assumption.
    apply Strips_keep; [assumption|].
    eapply IH; [|reflexivity]. subst n. simpl. lia.
Qed.

Lemma Strips_functional (s r : jsstring) : Strips s r -> r = replace_stray s.
Proof.
  induction 1 as [|a tl r Hat _ IH|a b c d rest r Hm _ IH].
  - reflexivity.
  - rewrite replace_stray_keep by assumption. now rewrite IH.
  - now rewrite replace_stray_cut.
Qed.

Lemma replace_stray_word (a : N) (tl : jsstring) :
  isWordChar a = true -> replace_stray (a :: tl) = a :: replace_stray tl.
Proof.
  intros Ha. apply replace_stray_keep.
  destruct tl as [|b [|c [|d rest]]]; try reflexivity.
  cbn [strayAt]. unfold stray. now rewrite Ha.
Qed.

(** ** The parser and the matcher *)

Section Matcher.

Context {I : Imports}.

Lemma parseSearchFilter_tokenized (f : jsstring) :
  parseSearchFilter f = tokenized (replace_stray f).
Proof.
  unfold parseSearchFilter, tokenized, collect, ruleOptions.
  destruct f as [|a f]; [reflexivity|].
  cbn [truthy].
  destruct (negb (truthy (replace_stray (a :: f)))
            || str_eqb (replace_stray (a :: f)) (js "*")); [reflexivity|].
  destruct (parse _ _) as [parsed|e]; [|reflexivity].
  now destruct (offsets parsed).
Qed.

Lemma isValidData_unfold (f : jsstring) (d : PubSubData) (w : World) :
  isValidData f d w =
  match parseSearchFilter f with
  | Throw e => (Throw e, w)
  | Normal [] => (Normal true, w ++ [ConsoleDebug (js "no search filters found")])
  | Normal (p :: fs) => (every (p :: fs) d, w)
  end.
Proof.
  unfold isValidData, bind, lift, perform, ret.
  destruct (parseSearchFilter f) as [[|p fs]|e]; reflexivity.
Qed.

Lemma every_true (fs : list SearchFilter) (d : PubSubData) :
  every fs d = Normal true <-> Forall (fun p => isValid p d = Normal true) fs.
Proof.
  induction fs as [|p fs IH]; simpl.
  - split; [constructor | reflexivity].
  - destruct (isValid p d) as [[|]|e] eqn:E.
    + rewrite IH. split.
      * now constructor.
      * now inversion 1.
    + split; [discriminate|]. inversion 1; congruence.
    + split; [discriminate|]. inversion 1; congruence.
Qed.

Lemma fold_pushKeyword (ks : list SearchParserKeyWordOffset)
  (acc : list SearchFilter) :
  fold_left pushKeyword ks acc = acc ++ flat_map (pushKeyword []) ks.
Proof.
  revert acc. induction ks as [|k ks IH]; intros acc; simpl.
  - now rewrite app_nil_r.
  - rewrite IH.
    assert (E : pushKeyword acc k = acc ++ pushKeyword [] k).
    { unfold pushKeyword. destruct (value k) as [v|]; [|now rewrite app_nil_r].
      destruct (truthy v); [|now rewrite app_nil_r].
      destruct (filterOf (keyword k) v); [reflexivity | now rewrite app_nil_r]. }
    now rewrite E, <- app_assoc.
Qed.

Lemma collect_tokens (r : SearchParserResult) :
  collect r = flat_map (pushKeyword []) (keywordOffsets (tokens r)).
Proof.
  unfold collect, tokens. destruct (offsets r) as [offs|]; [|reflexivity].
  now rewrite fold_pushKeyword.
Qed.




Lemma strayAt_app (l m : jsstring) :
  4 <= List.length l -> strayAt (l ++ m) = strayAt l.
Proof.
  destruct l as [|a [|b [|c [|d l]]]]; cbn [List.length]; try lia.
  reflexivity.
Qed.

Lemma replace_stray_leftmost (pre post : jsstring) (a b c d : N) :
  occurs (pre ++ [a; b; c]) = false ->
  stray a b c d = true ->
  replace_stray (pre ++ a :: b :: c :: d :: post) = pre ++ replace_stray post.
Proof.
  intros Hocc Hm. induction pre as [|x pre IH]; cbn [app].
  - now apply replace_stray_cut.
  - cbn [app occurs] in Hocc. apply orb_false_iff in Hocc as [Hat Hocc].
    rewrite replace_stray_keep.
    + now rewrite IH.
    + change (x :: pre ++ a :: b :: c :: d :: post)
        with ((x :: pre) ++ [a; b; c] ++ d :: post).
      rewrite app_assoc, strayAt_app; [exact Hat|].
      cbn [List.length]. rewrite length_app. cbn [List.length]. lia.
Qed.

(** C8, as the code has it. The parser tokenizes the sanitized text, and
    sanitization removes exactly the occurrences of one four-unit sequence:
    a code unit that is not a word character, a whitespace code unit, a
    double quote and a colon. Scanning from the left, the first occurrence
    is removed whole and the scan resumes after it; a text without an
    occurrence is left as it is, and the parser then works on the original
    text. *)
Theorem sanitization_strips_the_four_unit_pattern (f : jsstring) :
  parseSearchFilter f = tokenized (replace_stray f) /\
  (forall pre post a b c d,
      occurs (pre ++ [a; b; c]) = false ->
      isWordChar a = false -> isWhiteSpace b = true ->
      c = QUOTE -> d = COLON ->
      replace_stray (pre ++ a :: b :: c :: d :: post)
      = pre ++ replace_stray post) /\
  (forall s, occurs s = false -> replace_stray s = s) /\
  (occurs f = false -> parseSearchFilter f = tokenized f).
Proof.
  split; [apply parseSearchFilter_tokenized|]. split; [|split].
  - intros pre post a b c d Hocc Ha Hb -> ->.
    apply replace_stray_leftmost; [exact Hocc|].
    unfold stray. now rewrite Ha, Hb, !N.eqb_refl.
  - apply replace_stray_id.
  - intros H. now rewrite parseSearchFilter_tokenized, replace_stray_id.
Qed.

(** C2. A filter text that is empty or exactly the wildcard after
    sanitization parses to the empty predicate sequence, and the matcher
    answers true for every event. *)
Theorem empty_or_wildcard_matches_every_event
  (f : jsstring) (d : PubSubData) (w : World) :
  replace_stray f = [] \/ replace_stray f = js "*" ->
  parseSearchFilter f = Normal [] /\
  fst (isValidData f d w) = Normal true.
Proof.
  intros H.
  assert (E : parseSearchFilter f = Normal []).
  { rewrite parseSearchFilter_tokenized. unfold tokenized.
    destruct H as [-> | ->]; reflexivity. }
  split; [exact E|]. now rewrite isValidData_unfold, E.
Qed.

(** C3. When the filter parses to a non-empty predicate sequence, the
    matcher answers true exactly when every predicate of the sequence
    answers true on the event. *)
Theorem matcher_is_conjunction_of_predicates
  (f : jsstring) (d : PubSubData) (w : World) (fs : list SearchFilter) :
  parseSearchFilter f = Normal fs ->
  fs <> [] ->
  (fst (isValidData f d w) = Normal true <->
   Forall (fun p => isValid p d = Normal true) fs).
Proof.
  intros E Hne. rewrite isValidData_unfold, E.
  destruct fs as [|p fs]; [congruence|].
  cbn [fst]. apply every_true.
Qed.

End Matcher.

(** C8 on the filter [is:unread] followed by an exclamation mark, a
    space, a double quote and a colon: the four code units are removed and
    the parser works on [is:unread]. *)
Lemma sanitization_strips_the_four_unit_pattern_witness :
  occurs (js "is:unread" ++ [33; 32; QUOTE])%N = false /\
  isWordChar 33 = false /\ isWhiteSpace 32 = true /\
  replace_stray (js "is:unread" ++ [33; 32; QUOTE; COLON])%N = js "is:unread" /\
  parseSearchFilter (I := Fixture.imports)
    (js "is:unread" ++ [33; 32; QUOTE; COLON])%N
  = Normal [ReadFilter (js "unread")].
Proof.
  destruct (@sanitization_strips_the_four_unit_pattern Fixture.imports
              (js "is:unread" ++ [33; 32; QUOTE; COLON])%N)
    as (Hparse & Hcut & _ & _).
  pose proof (Hcut (js "is:unread") [] 33 32 QUOTE COLON
                eq_refl eq_refl eq_refl eq_refl eq_refl)%N as E.
  split; [reflexivity|]. split; [reflexivity|]. split; [reflexivity|].
  split; [exact E|].
  rewrite Hparse, E. reflexivity.
Defined.

(** C8 as stated fails: in [is!:unread] a character that is not a word
    character stands directly before a colon, which is the pattern in the
    words of the specification, and sanitization removes nothing. *)
Lemma punctuation_next_to_a_colon_is_kept :
  strayPunctuation (js "is!:unread") = true /\
  replace_stray (js "is!:unread") = js "is!:unread" /\
  parseSearchFilter (I := Fixture.imports) (js "is!:unread")
  = tokenized (I := Fixture.imports) (js "is!:unread").
Proof. repeat split; reflexivity. Qed.

(** C2 on the wildcard filter. *)
Lemma empty_or_wildcard_matches_every_event_witness :
  (replace_stray (js "*") = [] \/ replace_stray (js "*") = js "*") /\
  parseSearchFilter (I := Fixture.imports) (js "*") = Normal [] /\
  fst (isValidData (I := Fixture.imports) (js "*") Fixture.readItem [])
  = Normal true.
Proof.
  split; [right; reflexivity|].
  apply (empty_or_wildcard_matches_every_event (I := Fixture.imports)).
  right. reflexivity.
Defined.

(** C3 on the two-keyword filter [subscription:News is:unread]: it parses
    to two predicates; an unread item of News satisfies both and matches; a
    read item of News satisfies the first only and does not match. *)
Lemma matcher_is_conjunction_of_predicates_witness :
  parseSearchFilter (I := Inbox.imports) (js "subscription:News is:unread")
  = Normal [SubscriptionFilter (js "News"); ReadFilter (js "unread")] /\
  (fst (isValidData (I := Inbox.imports) (js "subscription:News is:unread")
          Inbox.unreadNews []) = Normal true <->
   Forall (fun p => isValid (Imports := Inbox.imports) p Inbox.unreadNews
                    = Normal true)
     [SubscriptionFilter (js "News"); ReadFilter (js "unread")]) /\
  (fst (isValidData (I := Inbox.imports) (js "subscription:News is:unread")
          Inbox.readNews []) = Normal true <->
   Forall (fun p => isValid (Imports := Inbox.imports) p Inbox.readNews
                    = Normal true)
     [SubscriptionFilter (js "News"); ReadFilter (js "unread")]) /\
  fst (isValidData (I := Inbox.imports) (js "subscription:News is:unread")
         Inbox.unreadNews []) = Normal true /\
  isValid (Imports := Inbox.imports) (SubscriptionFilter (js "News"))
    Inbox.readNews = Normal true /\
  isValid (Imports := Inbox.imports) (ReadFilter (js "unread"))
    Inbox.readNews = Normal false /\
  fst (isValidData (I := Inbox.imports) (js "subscription:News is:unread")
         Inbox.readNews []) = Normal false.
Proof.
  split; [reflexivity|]. split; [|split].
  - apply (@matcher_is_conjunction_of_predicates Inbox.imports);
      [reflexivity | discriminate].
  - apply (@matcher_is_conjunction_of_predicates Inbox.imports);
      [reflexivity | discriminate].
  - repeat split; reflexivity.
Defined.

(** ** The read-state keywords and the propagation of errors *)

Section MatcherProperties.

Context {I : Imports}.


Lemma every_returns (fs : list SearchFilter) (d : PubSubData) :
  (forall p, returnsNormally (isValid p d) = true) ->
  exists b, every fs d = Normal b.
Proof.
  intros H. induction fs as [|p fs [b IH]]; simpl.
  - now exists true.
  - specialize (H p). destruct (isValid p d) as [[|]|e]; try discriminate.
    + now exists b.
    + now exists false.
Qed.

Lemma filterOf_read (k v : jsstring) :
  readKeyword k = true -> filterOf k v = Some (ReadFilter v).
Proof.
  unfold readKeyword. intros H.
  apply orb_true_iff in H as [H | H]; apply str_eqb_eq in H; now subst k.
Qed.

Lemma sameToken_predicates (o1 o2 : list SearchParserOffset) :
  Forall2 sameToken o1 o2 ->
  flat_map (pushKeyword []) (keywordOffsets o1)
  = flat_map (pushKeyword []) (keywordOffsets o2).
Proof.
  induction 1 as [|x y o1 o2 Hxy _ IH]; [reflexivity|].
  destruct Hxy as [k1 k2 H1 H2 Hv | k1 k2 Hk Hv | t1 t2]; simpl;
    rewrite IH; [| |reflexivity]; f_equal; unfold pushKeyword; rewrite Hv.
  - destruct (value k2) as [v|]; [|reflexivity].
    now rewrite (filterOf_read _ v H1), (filterOf_read _ v H2).
  - now rewrite Hk.
Qed.

Lemma not_wildcard (a : N) (s : jsstring) :
  N.eqb a (N_of_ascii "*") = false ->
  negb (truthy (a :: s)) || str_eqb (a :: s) (js "*") = false.
Proof.
  intros H. change (js "*") with [N_of_ascii "*"].
  cbn [truthy negb orb str_eqb]. now rewrite H.
Qed.

Lemma sanitize_is (v : jsstring) :
  replace_stray (js "is:" ++ v) = js "is" ++ replace_stray (COLON :: v).
Proof.
  change (js "is:" ++ v) with (N_of_ascii "i" :: N_of_ascii "s" :: COLON :: v).
  now rewrite 2 replace_stray_word by reflexivity.
Qed.

Lemma sanitize_type (v : jsstring) :
  replace_stray (js "type:" ++ v) = js "type" ++ replace_stray (COLON :: v).
Proof.
  change (js "type:" ++ v)
    with (N_of_ascii "t" :: N_of_ascii "y" :: N_of_ascii "p"
          :: N_of_ascii "e" :: COLON :: v).
  now rewrite 4 replace_stray_word by reflexivity.
Qed.

Lemma pushKeyword_read (k : SearchParserKeyWordOffset) (x : jsstring) :
  readKeyword (keyword k) = true ->
  value k = Some x ->
  pushKeyword [] k = if truthy x then [ReadFilter x] else [].
Proof.
  intros Hk Hv. unfold pushKeyword. rewrite Hv.
  destruct (truthy x); [|reflexivity].
  now rewrite (filterOf_read _ x Hk).
Qed.

Lemma tokenized_cons (a : N) (text : jsstring) (r : SearchParserResult) :
  N.eqb a (N_of_ascii "*") = false ->
  parse (a :: text) ruleOptions = Normal r ->
  tokenized (a :: text)
  = Normal (flat_map (pushKeyword []) (keywordOffsets (tokens r))).
Proof.
  intros Ha Hp. unfold tokenized.
  rewrite (not_wildcard a text Ha), Hp. now rewrite collect_tokens.
Qed.

(** C6. Take a value [v] and let the tokenizer answer the filters [is:v]
    and [type:v] with a first token that is a keyword token, named [is] for
    the one and [type] for the other, carrying the same value [x], followed
    by the same tokens. Then both filters parse to the same predicates, the
    first of which is [ReadFilter x] (none is built for an empty [x]), and
    the matcher decides every event alike for the two filters. *)
Theorem is_and_type_are_the_same_predicate
  (v x : jsstring) (d : PubSubData) (w : World)
  (r1 r2 : SearchParserResult) (k1 k2 : SearchParserKeyWordOffset)
  (rest1 rest2 : list SearchParserOffset) :
  parse (replace_stray (js "is:" ++ v)) ruleOptions = Normal r1 ->
  parse (replace_stray (js "type:" ++ v)) ruleOptions = Normal r2 ->
  tokens r1 = KeyWordOffset k1 :: rest1 ->
  keyword k1 = js "is" -> value k1 = Some x ->
  tokens r2 = KeyWordOffset k2 :: rest2 ->
  keyword k2 = js "type" -> value k2 = Some x ->
  Forall2 sameToken rest1 rest2 ->
  exists fs,
    parseSearchFilter (js "is:" ++ v)
    = Normal ((if truthy x then [ReadFilter x] else []) ++ fs) /\
    parseSearchFilter (js "type:" ++ v)
    = Normal ((if truthy x then [ReadFilter x] else []) ++ fs) /\
    isValidData (js "is:" ++ v) d w = isValidData (js "type:" ++ v) d w.
Proof.
  intros H1 H2 T1 K1 V1 T2 K2 V2 Hrest.
  exists (flat_map (pushKeyword []) (keywordOffsets rest1)).
  assert (E1 : parseSearchFilter (js "is:" ++ v)
               = Normal ((if truthy x then [ReadFilter x] else [])
                         ++ flat_map (pushKeyword []) (keywordOffsets rest1))).
  { rewrite parseSearchFilter_tokenized. revert H1. rewrite sanitize_is.
    change (js "is") with (N_of_ascii "i" :: js "s"). cbn [app]. intros H1.
    rewrite (@tokenized_cons (N_of_ascii "i") _ r1 eq_refl H1), T1.
    change (keywordOffsets (KeyWordOffset k1 :: rest1))
      with (k1 :: keywordOffsets rest1).
    cbn [flat_map].
    rewrite (@pushKeyword_read k1 x); [reflexivity | now rewrite K1 | exact V1]. }
  assert (E2 : parseSearchFilter (js "type:" ++ v)
               = Normal ((if truthy x then [ReadFilter x] else [])
                         ++ flat_map (pushKeyword []) (keywordOffsets rest1))).
  { rewrite parseSearchFilter_tokenized. revert H2. rewrite sanitize_type.
    change (js "type") with (N_of_ascii "t" :: js "ype"). cbn [app]. intros H2.
    rewrite (@tokenized_cons (N_of_ascii "t") _ r2 eq_refl H2), T2.
    change (keywordOffsets (KeyWordOffset k2 :: rest2))
      with (k2 :: keywordOffsets rest2).
    cbn [flat_map]. rewrite <- (sameToken_predicates Hrest).
    rewrite (@pushKeyword_read k2 x); [reflexivity | now rewrite K2 | exact V2]. }
  split; [exact E1|]. split; [exact E2|].
  now rewrite !isValidData_unfold, E1, E2.
Qed.



End MatcherProperties.

(** C6 on the value [unread subscription:News]: the two filters have two
    tokens each, at different positions, and both parse to the read-state
    predicate on [unread] followed by the subscription predicate. *)
Lemma is_and_type_are_the_same_predicate_witness :
  exists fs,
    parseSearchFilter (I := Inbox.imports)
      (js "is:" ++ js "unread subscription:News")
    = Normal ((if truthy (js "unread") then [ReadFilter (js "unread")] else [])
              ++ fs) /\
    parseSearchFilter (I := Inbox.imports)
      (js "type:" ++ js "unread subscription:News")
    = Normal ((if truthy (js "unread") then [ReadFilter (js "unread")] else [])
              ++ fs) /\
    isValidData (I := Inbox.imports)
      (js "is:" ++ js "unread subscription:News") Inbox.unreadNews []
    = isValidData (I := Inbox.imports)
        (js "type:" ++ js "unread subscription:News") Inbox.unreadNews [].
Proof.
  eapply (@is_and_type_are_the_same_predicate Inbox.imports
            (js "unread subscription:News") (js "unread") Inbox.unreadNews []).
  - reflexivity.
  - reflexivity.
  - reflexivity.
  - reflexivity.
  - reflexivity.
  - reflexivity.
  - reflexivity.
  - reflexivity.
  - constructor; [|constructor]. apply sameToken_keyword; reflexivity.
Defined.

(** C6, what the two filters of the example parse to. *)
Example is_and_type_parse_to_the_read_predicate :
  parseSearchFilter (I := Inbox.imports)
    (js "is:" ++ js "unread subscription:News")
  = Normal [ReadFilter (js "unread"); SubscriptionFilter (js "News")] /\
  parseSearchFilter (I := Inbox.imports)
    (js "type:" ++ js "unread subscription:News")
  = Normal [ReadFilter (js "unread"); SubscriptionFilter (js "News")].
Proof. split; reflexivity. Qed.



(** ** The dispatcher *)

Section Dispatcher.

Context {I : Imports}.

Create HintDb framing.

Lemma framed_ret {A : Type} (a : A) : framed (ret a).
Proof. intros w. unfold ret. cbn. now rewrite app_nil_r. Qed.

Lemma framed_lift {A : Type} (c : Completion Error A) : framed (lift c).
Proof. intros w. unfold lift. cbn. now rewrite app_nil_r. Qed.

Lemma framed_perform (e : Effect) : framed (perform e).
Proof. intros w. reflexivity. Qed.

#[local] Hint Resolve framed_ret framed_lift framed_perform : framing.

Lemma framed_bind {A B : Type} (m : M A) (k : A -> M B) :
  framed m -> (forall a, framed (k a)) -> framed (bind m k).
Proof.
  intros Hm Hk w. unfold bind. rewrite (Hm w).
  destruct (m []) as [[a|e] out]; cbn [fst snd]; [|reflexivity].
  rewrite (Hk a (w ++ out)), (Hk a out). cbn [fst snd].
  now rewrite app_assoc.
Qed.

#[local] Hint Resolve framed_bind : framing.

Lemma framed_mapM {A B : Type} (f : A -> M B) (l : list A) :
  (forall x, framed (f x)) -> framed (mapM f l).
Proof.
  intros Hf. induction l as [|x l IH]; cbn [mapM]; auto with framing.
Qed.

Lemma framed_isValidData (f : jsstring) (d : PubSubData) :
  framed (isValidData f d).
Proof.
  unfold isValidData. apply framed_bind; [auto with framing|].
  intros fs. destruct (Nat.eqb (List.length fs) 0); auto with framing.
Qed.

Lemma actionCallback_spec (api tok : jsstring) (d : PubSubData)
  (a : RuleAction) (w : World) :
  actionCallback api tok d a w =
  match eligibleCall api tok d a with
  | Some c => (Normal (Some (run c)), w ++ [Invoke c])
  | None => (Normal None, w ++ [ConsoleLog (skipMessage (action_type a))])
  end.
Proof.
  unfold actionCallback, eligibleCall.
  destruct (action_type a); destruct (data_id d) as [[|c i]|];
    try reflexivity.
  destruct (action_params a); reflexivity.
Qed.

Lemma actionEffects_spec (api tok : jsstring) (d : PubSubData)
  (a : RuleAction) :
  actionEffects api tok d a =
  match eligibleCall api tok d a with
  | Some c => [Invoke c]
  | None => [ConsoleLog (skipMessage (action_type a))]
  end.
Proof.
  unfold actionEffects. rewrite actionCallback_spec.
  now destruct (eligibleCall api tok d a).
Qed.

Lemma mapM_actions (api tok : jsstring) (d : PubSubData)
  (acts : list RuleAction) (w : World) :
  mapM (actionCallback api tok d) acts w =
  (Normal (map (fun a => option_map run (eligibleCall api tok d a)) acts),
   w ++ flat_map (actionEffects api tok d) acts).
Proof.
  revert w. induction acts as [|a acts IH]; intros w; cbn [mapM map flat_map].
  - unfold ret. now rewrite app_nil_r.
  - unfold bind at 1. rewrite actionEffects_spec, actionCallback_spec.
    destruct (eligibleCall api tok d a) as [c|]; unfold bind;
      rewrite IH; unfold ret; cbn [option_map]; now rewrite <- app_assoc.
Qed.

Lemma ruleCallback_returns (api tok : jsstring) (d : PubSubData) (r : Rule)
  (w : World) (b : bool) :
  decision d r = Normal b ->
  ruleCallback api tok d r w =
  (Normal (if b then Some (attempts api tok d r) else None),
   w ++ ruleEffects api tok d r).
Proof.
  unfold decision, ruleEffects, matches, decision, diagnostics. intros E.
  unfold ruleCallback, bind. rewrite (framed_isValidData (rule_filter r) d w).
  rewrite E. destruct b; cbn [negb].
  - rewrite mapM_actions. unfold ret, attempts. now rewrite app_assoc.
  - unfold ret. now rewrite app_nil_r.
Qed.

Lemma mapM_rules (api tok : jsstring) (d : PubSubData) (rules : list Rule)
  (w : World) :
  matchingReturns d rules = true ->
  mapM (ruleCallback api tok d) rules w =
  (Normal (map (fun r => if matches d r then Some (attempts api tok d r)
                         else None) rules),
   w ++ flat_map (ruleEffects api tok d) rules).
Proof.
  revert w. induction rules as [|r rules IH]; intros w H;
    cbn [mapM map flat_map].
  - unfold ret. now rewrite app_nil_r.
  - cbn [matchingReturns forallb] in H.
    apply andb_true_iff in H as [Hr Hrest].
    destruct (decision d r) as [b|e] eqn:E; [|discriminate].
    unfold bind at 1. rewrite (@ruleCallback_returns api tok d r w b E).
    unfold bind. rewrite (IH _ Hrest). unfold ret, matches. rewrite E.
    now rewrite <- app_assoc.
Qed.

Lemma defined_attempts (api tok : jsstring) (d : PubSubData)
  (acts : list RuleAction) :
  defined (map (fun a => option_map run (eligibleCall api tok d a)) acts)
  = map run (flat_map (fun a => match eligibleCall api tok d a with
                                | Some c => [c]
                                | None => []
                                end) acts).
Proof.
  unfold defined. induction acts as [|a acts IH]; [reflexivity|].
  cbn [map flat_map]. rewrite map_app, IH.
  now destruct (eligibleCall api tok d a).
Qed.

Lemma defined_app {A : Type} (l1 l2 : list (option A)) :
  defined (l1 ++ l2) = defined l1 ++ defined l2.
Proof. unfold defined. apply flat_map_app. Qed.

Lemma joined_promises (api tok : jsstring) (d : PubSubData)
  (rules : list Rule) :
  defined (flat (map (fun r => if matches d r
                               then Some (attempts api tok d r)
                               else None) rules))
  = map run (eligibleCalls api tok d rules).
Proof.
  unfold flat, eligibleCalls. induction rules as [|r rules IH]; [reflexivity|].
  cbn [map flat_map]. rewrite defined_app, map_app, IH. f_equal.
  destruct (matches d r); [|reflexivity].
  apply defined_attempts.
Qed.

Lemma invokedCalls_app (w1 w2 : list Effect) :
  invokedCalls (w1 ++ w2) = invokedCalls w1 ++ invokedCalls w2.
Proof. unfold invokedCalls. apply flat_map_app. Qed.

Lemma invokedCalls_actions (api tok : jsstring) (d : PubSubData)
  (acts : list RuleAction) :
  invokedCalls (flat_map (actionEffects api tok d) acts)
  = flat_map (fun a => match eligibleCall api tok d a with
                       | Some c => [c]
                       | None => []
                       end) acts.
Proof.
  induction acts as [|a acts IH]; [reflexivity|].
  cbn [flat_map]. rewrite invokedCalls_app, IH, actionEffects_spec.
  now destruct (eligibleCall api tok d a).
Qed.

Lemma diagnostics_cases (d : PubSubData) (r : Rule) :
  diagnostics d r = [] \/
  diagnostics d r = [ConsoleDebug (js "no search filters found")].
Proof.
  unfold diagnostics. rewrite isValidData_unfold.
  destruct (parseSearchFilter (rule_filter r)) as [[|p fs]|e]; cbn [snd]; auto.
Qed.

Lemma invokedCalls_diagnostics (d : PubSubData) (r : Rule) :
  invokedCalls (diagnostics d r) = [].
Proof. destruct (diagnostics_cases d r) as [-> | ->]; reflexivity. Qed.

Lemma invokedCalls_rules (api tok : jsstring) (d : PubSubData)
  (rules : list Rule) :
  invokedCalls (flat_map (ruleEffects api tok d) rules)
  = eligibleCalls api tok d rules.
Proof.
  unfold eligibleCalls. induction rules as [|r rules IH]; [reflexivity|].
  cbn [flat_map]. rewrite invokedCalls_app, IH. f_equal.
  unfold ruleEffects. rewrite invokedCalls_app, invokedCalls_diagnostics.
  cbn [app]. destruct (matches d r); [|reflexivity].
  apply invokedCalls_actions.
Qed.

Lemma triggerActions_spec (u : jsstring) (rules : list Rule) (d : PubSubData)
  (api s tok : jsstring) (w : World) :
  getAuthToken u s = Normal tok ->
  matchingReturns d rules = true ->
  triggerActions u rules d api s w =
  (Promise_all (map run (eligibleCalls api tok d rules)),
   w ++ TokenRequest u s :: flat_map (ruleEffects api tok d) rules).
Proof.
  intros Htok Hret. unfold triggerActions, async, bind at 1, perform.
  unfold bind at 1, lift. rewrite Htok. unfold bind.
  rewrite (@mapM_rules api tok d rules (w ++ [TokenRequest u s]) Hret).
  unfold ret. rewrite joined_promises, <- app_assoc. reflexivity.
Qed.

Lemma triggerActions_denied (u : jsstring) (rules : list Rule)
  (d : PubSubData) (api s : jsstring) (e : Error) (w : World) :
  getAuthToken u s = Throw e ->
  triggerActions u rules d api s w =
  (mkPromise 0 (Throw e), w ++ [TokenRequest u s]).
Proof.
  intros Htok. unfold triggerActions, async, bind at 1, perform.
  unfold bind at 1, lift. now rewrite Htok.
Qed.

Lemma eligibleCall_credential (api tok : jsstring) (d : PubSubData)
  (a : RuleAction) (c : CapCall) :
  eligibleCall api tok d a = Some c -> credentialOf c = tok.
Proof.
  unfold eligibleCall.
  destruct (action_type a); destruct (data_id d) as [[|x i]|];
    try discriminate; try (now intros [= <-]).
  destruct (action_params a); [discriminate | now intros [= <-]].
Qed.

Lemma diagnostics_use_token (tok : jsstring) (d : PubSubData) (r : Rule) :
  Forall (usesToken tok) (diagnostics d r).
Proof.
  destruct (diagnostics_cases d r) as [-> | ->]; repeat constructor.
Qed.

Lemma ruleEffects_use_token (api tok : jsstring) (d : PubSubData) (r : Rule) :
  Forall (usesToken tok) (ruleEffects api tok d r).
Proof.
  unfold ruleEffects. apply Forall_app. split.
  - apply diagnostics_use_token.
  - destruct (matches d r); [|constructor].
    induction (rule_actions r) as [|a acts IH]; [constructor|].
    cbn [flat_map]. apply Forall_app. split; [|exact IH].
    rewrite actionEffects_spec.
    destruct (eligibleCall api tok d a) as [c|] eqn:E; repeat constructor.
    cbn. eapply eligibleCall_credential; eassumption.
Qed.

Lemma ruleCallback_uses_token (api tok : jsstring) (d : PubSubData)
  (r : Rule) (w : World) :
  exists out, snd (ruleCallback api tok d r w) = w ++ out /\
              Forall (usesToken tok) out.
Proof.
  destruct (decision d r) as [b|e] eqn:E.
  - rewrite (@ruleCallback_returns api tok d r w b E). cbn [snd].
    eexists. split; [reflexivity | apply ruleEffects_use_token].
  - unfold ruleCallback, bind.
    rewrite (framed_isValidData (rule_filter r) d w).
    unfold decision in E. rewrite E. cbn [snd].
    eexists. split; [reflexivity | apply (diagnostics_use_token tok d r)].
Qed.

Lemma mapM_rules_use_token (api tok : jsstring) (d : PubSubData)
  (rules : list Rule) (w : World) :
  exists out, snd (mapM (ruleCallback api tok d) rules w) = w ++ out /\
              Forall (usesToken tok) out.
Proof.
  revert w. induction rules as [|r rules IH]; intros w; cbn [mapM].
  - exists []. split; [unfold ret; cbn; now rewrite app_nil_r | constructor].
  - unfold bind at 1.
    destruct (ruleCallback_uses_token api tok d r w) as (o1 & E1 & F1).
    destruct (ruleCallback api tok d r w) as [[y|e] w1]; cbn [snd] in E1;
      subst w1.
    + unfold bind. destruct (IH (w ++ o1)) as (o2 & E2 & F2).
      destruct (mapM (ruleCallback api tok d) rules (w ++ o1)) as [[ys|e] w2];
        cbn [snd] in E2; subst w2; unfold ret; cbn [snd];
        exists (o1 ++ o2); (split; [now rewrite app_assoc | now apply Forall_app]).
    + exists o1. now split.
Qed.

(** *** [Promise.all] *)

Lemma firstRejection_none {A : Type} (ps : list (Promise Error A)) :
  Forall (fun p => returnsNormally (outcome p) = true) ps ->
  firstRejection ps = None /\
  Forall2 (fun p v => outcome p = Normal v) ps (fulfilledValues ps).
Proof.
  induction 1 as [|p ps Hp _ [IH1 IH2]]; [split; [reflexivity | constructor]|].
  unfold fulfilledValues in *. cbn [firstRejection flat_map].
  destruct (outcome p) as [v|e] eqn:E; [|discriminate].
  split; [exact IH1|]. cbn [app]. now constructor.
Qed.

Lemma firstRejection_some {A : Type} (ps : list (Promise Error A)) :
  Exists (fun p => returnsNormally (outcome p) = false) ps ->
  exists p e,
    In p ps /\ outcome p = Throw e /\
    firstRejection ps = Some (settleAt p, e) /\
    forall q, In q ps -> returnsNormally (outcome q) = false ->
              settleAt p <= settleAt q.
Proof.
  induction ps as [|p ps IH]; intros H; [inversion H|].
  cbn [firstRejection].
  destruct (outcome p) as [v|e] eqn:E.
  - assert (H' : Exists (fun p => returnsNormally (outcome p) = false) ps).
    { inversion H as [? ? Hp|]; subst; [|assumption].
      rewrite E in Hp. discriminate. }
    destruct (IH H') as (p0 & e0 & Hin & Ho & Hf & Hmin).
    exists p0, e0. repeat split; auto.
    + now right.
    + intros q [<- | Hq] Hrej; [rewrite E in Hrej; discriminate | auto].
  - destruct (firstRejection ps) as [[t e']|] eqn:F.
    + assert (H' : Exists (fun p => returnsNormally (outcome p) = false) ps).
      { apply Exists_exists.
        destruct (Forall_Exists_dec (fun p => returnsNormally (outcome p) = true)
                    (fun p => bool_dec (returnsNormally (outcome p)) true) ps)
          as [Hall | Hex].
        - apply firstRejection_none in Hall as [Hn _]. congruence.
        - apply Exists_exists in Hex as (q & Hq & Hn). exists q. split; auto.
          now destruct (returnsNormally (outcome q)). }
      destruct (IH H') as (p0 & e0 & Hin & Ho & Hf & Hmin).
      injection Hf as -> ->.
      destruct (settleAt p <=? settleAt p0) eqn:L.
      * apply Nat.leb_le in L. exists p, e. repeat split; auto.
        -- now left.
        -- intros q [<- | Hq] Hrej; [lia|]. specialize (Hmin q Hq Hrej). lia.
      * apply Nat.leb_gt in L. exists p0, e0. repeat split; auto.
        -- now right.
        -- intros q [<- | Hq] Hrej; [lia | auto].
    + exists p, e. repeat split; auto.
      * now left.
      * intros q [<- | Hq] Hrej; [lia|].
        exfalso.
        assert (Hall : ~ Forall (fun p => returnsNormally (outcome p) = true) ps).
        { intros Hall. rewrite Forall_forall in Hall.
          specialize (Hall q Hq). congruence. }
        clear - F Hq Hrej. induction ps as [|x ps IHps]; [inversion Hq|].
        cbn [firstRejection] in F. destruct (outcome x) as [v|e] eqn:Ex.
        -- destruct Hq as [<- | Hq]; [rewrite Ex in Hrej; discriminate | auto].
        -- destruct (firstRejection ps) as [[t e']|]; [|discriminate].
           destruct (settleAt x <=? t); discriminate.
Qed.

Lemma eligibleCall_precondition (api tok : jsstring) (d : PubSubData)
  (a : RuleAction) :
  (exists c, eligibleCall api tok d a = Some c) <->
  match action_type a with
  | AddLabel => truthy_opt (data_id d) = true /\ action_params a <> []
  | Archive => truthy_opt (data_id d) = true
  | MarkAsRead => truthy_opt (data_id d) = true
  | SendNotification => True
  end.
Proof.
  unfold eligibleCall.
  destruct (action_type a); destruct (data_id d) as [[|x i]|];
    cbn [truthy_opt truthy].
  all: try (destruct (action_params a) as [|l ls]).
  all: split.
  all: try (intros (c & Hc); discriminate Hc).
  all: try (intros _; eexists; reflexivity).
  all: try (intros [H1 H2]; try discriminate H1; congruence).
  all: try discriminate.
  all: try (intros _; split; [reflexivity | discriminate]).
  all: try reflexivity.
  all: exact (fun _ => Logic.I).
Qed.

(** *** The claims about [triggerActions] *)

(** C1, as the code has it. When the token is obtained and rule matching
    returns, every eligible action is invoked whatever the other actions
    do, and the dispatch joins them fail-fast: if all of them fulfil, it
    fulfils when the last has settled, with one value per invoked action in
    order; if some action fails, it rejects with the failure of the action
    that fails first, at the tick of that failure. *)
Theorem dispatch_joins_actions_fail_fast
  (u : jsstring) (rules : list Rule) (d : PubSubData) (api s tok : jsstring)
  (w : World) :
  getAuthToken u s = Normal tok ->
  matchingReturns d rules = true ->
  let calls := eligibleCalls api tok d rules in
  let r := triggerActions u rules d api s w in
  invokedCalls (snd r) = invokedCalls w ++ calls /\
  (Forall (fun c => returnsNormally (outcome (run c)) = true) calls ->
   exists vs,
     fst r = mkPromise (lastSettle (map run calls)) (Normal vs) /\
     Forall2 (fun c v => outcome (run c) = Normal v) calls vs) /\
  (Exists (fun c => returnsNormally (outcome (run c)) = false) calls ->
   exists c e,
     In c calls /\ outcome (run c) = Throw e /\
     fst r = mkPromise (settleAt (run c)) (Throw e) /\
     forall c', In c' calls -> returnsNormally (outcome (run c')) = false ->
                settleAt (run c) <= settleAt (run c')).
Proof.
  intros Htok Hret calls r. subst r.
  rewrite (@triggerActions_spec u rules d api s tok w Htok Hret).
  cbn [fst snd]. fold calls. split; [|split].
  - rewrite invokedCalls_app. f_equal.
    change (TokenRequest u s :: flat_map (ruleEffects api tok d) rules)
      with ([TokenRequest u s] ++ flat_map (ruleEffects api tok d) rules).
    rewrite invokedCalls_app. apply invokedCalls_rules.
  - intros Hall.
    assert (Hps : Forall (fun p => returnsNormally (outcome p) = true)
                    (map run calls)).
    { rewrite Forall_map. exact Hall. }
    destruct (firstRejection_none Hps) as [Hnone Hvals].
    exists (fulfilledValues (map run calls)). split.
    + unfold Promise_all. now rewrite Hnone.
    + clear - Hvals. remember (fulfilledValues (map run calls)) as vs eqn:E.
      clear E. revert vs Hvals.
      induction calls as [|c calls IH]; intros vs H; inversion H; subst;
        constructor; auto.
  - intros Hex.
    assert (Hps : Exists (fun p => returnsNormally (outcome p) = false)
                    (map run calls)).
    { rewrite Exists_map. exact Hex. }
    destruct (firstRejection_some Hps) as (p & e & Hin & Ho & Hf & Hmin).
    apply in_map_iff in Hin as (c & <- & Hc).
    exists c, e. repeat split; auto.
    + unfold Promise_all. now rewrite Hf.
    + intros c' Hc' Hrej. apply Hmin; [now apply in_map | exact Hrej].
Qed.

(** C4, as the code has it. When the token is obtained and rule matching
    returns, the dispatch performs, after the token request and rule by
    rule, the matcher's diagnostic and then, for a matching rule, one effect
    per action: the capability call if the action's precondition holds and
    the skip diagnostic otherwise. The precondition of AddLabel is an item
    identifier that is present and not the empty string together with
    non-empty params; that of Archive and MarkAsRead is such an identifier;
    SendNotification has none and sends the fixed message. *)
Theorem preconditions_decide_capability_calls
  (u : jsstring) (rules : list Rule) (d : PubSubData) (api s tok : jsstring)
  (w : World) :
  getAuthToken u s = Normal tok ->
  matchingReturns d rules = true ->
  snd (triggerActions u rules d api s w)
  = w ++ TokenRequest u s :: flat_map (ruleEffects api tok d) rules /\
  forall a,
    ((exists c, In (Invoke c) (actionEffects api tok d a)) <->
     match action_type a with
     | AddLabel => truthy_opt (data_id d) = true /\ action_params a <> []
     | Archive => truthy_opt (data_id d) = true
     | MarkAsRead => truthy_opt (data_id d) = true
     | SendNotification => True
     end) /\
    actionEffects api tok d a =
    match eligibleCall api tok d a with
    | Some c => [Invoke c]
    | None => [ConsoleLog (skipMessage (action_type a))]
    end.
Proof.
  intros Htok Hret. split.
  - now rewrite (@triggerActions_spec u rules d api s tok w Htok Hret).
  - intros a. split; [|apply actionEffects_spec].
    rewrite <- (eligibleCall_precondition api tok d a), actionEffects_spec.
    destruct (eligibleCall api tok d a) as [c0|]; split.
    + intros _. now exists c0.
    + intros _. exists c0. now left.
    + intros (c & [Hc | []]). discriminate.
    + intros (c & Hc). discriminate.
Qed.

(** C5. A dispatch requests the token once, as its first effect; when the
    token is obtained, nothing that follows requests another and every
    capability call carries that token; when the request fails, the
    dispatch rejects with that failure and does nothing else. *)
Theorem credential_is_acquired_once_and_shared
  (u : jsstring) (rules : list Rule) (d : PubSubData) (api s : jsstring)
  (w : World) :
  match getAuthToken u s with
  | Normal tok =>
      exists out,
        snd (triggerActions u rules d api s w) = w ++ TokenRequest u s :: out /\
        Forall (usesToken tok) out
  | Throw e =>
      triggerActions u rules d api s w
      = (mkPromise 0 (Throw e), w ++ [TokenRequest u s])
  end.
Proof.
  destruct (getAuthToken u s) as [tok|e] eqn:Htok.
  - unfold triggerActions, async, bind at 1, perform.
    unfold bind at 1, lift. rewrite Htok. unfold bind.
    destruct (mapM_rules_use_token api tok d rules (w ++ [TokenRequest u s]))
      as (out & E & F).
    exists out. split; [|exact F].
    destruct (mapM (ruleCallback api tok d) rules (w ++ [TokenRequest u s]))
      as [[ps|e] w1]; cbn [snd] in *; subst w1; now rewrite <- app_assoc.
  - now apply triggerActions_denied.
Qed.

(** C10. When the token is obtained and rule matching returns, the
    promises the dispatch joins are those of the capability calls it made,
    one per call and in order; the calls are those of the eligible actions
    of the matching rules; a fulfilled dispatch carries one value per call,
    and a dispatch that made no call fulfils with the empty collection. *)
Theorem outcomes_are_one_per_invoked_capability
  (u : jsstring) (rules : list Rule) (d : PubSubData) (api s tok : jsstring)
  (w : World) :
  getAuthToken u s = Normal tok ->
  matchingReturns d rules = true ->
  exists out,
    snd (triggerActions u rules d api s w) = w ++ out /\
    invokedCalls out = eligibleCalls api tok d rules /\
    fst (triggerActions u rules d api s w)
    = Promise_all (map run (invokedCalls out)) /\
    (forall vs, outcome (fst (triggerActions u rules d api s w)) = Normal vs ->
                Forall2 (fun c v => outcome (run c) = Normal v)
                  (invokedCalls out) vs) /\
    (invokedCalls out = [] ->
     fst (triggerActions u rules d api s w) = mkPromise 0 (Normal [])).
Proof.
  intros Htok Hret.
  rewrite (@triggerActions_spec u rules d api s tok w Htok Hret).
  cbn [fst snd].
  exists (TokenRequest u s :: flat_map (ruleEffects api tok d) rules).
  assert (E : invokedCalls
                (TokenRequest u s :: flat_map (ruleEffects api tok d) rules)
              = eligibleCalls api tok d rules).
  { change (TokenRequest u s :: flat_map (ruleEffects api tok d) rules)
      with ([TokenRequest u s] ++ flat_map (ruleEffects api tok d) rules).
    rewrite invokedCalls_app. apply invokedCalls_rules. }
  rewrite E. repeat split; auto.
  - intros vs Hvs. unfold Promise_all in Hvs.
    destruct (firstRejection (map run (eligibleCalls api tok d rules)))
      as [[t e]|] eqn:F; cbn [outcome] in Hvs; [discriminate|].
    injection Hvs as <-.
    generalize (eligibleCalls api tok d rules) F. clear.
    intros calls. unfold fulfilledValues.
    induction calls as [|c calls IH]; cbn [map firstRejection flat_map];
      [constructor|].
    destruct (outcome (run c)) as [v|e] eqn:Ec.
    + intros F. cbn [app]. constructor; auto.
    + destruct (firstRejection (map run calls)) as [[t e']|];
        [destruct (settleAt (run c) <=? t)|]; discriminate.
  - intros ->. reflexivity.
Qed.

End Dispatcher.

(** C1 on a wildcard rule that archives and notifies. *)
Lemma dispatch_joins_actions_fail_fast_witness :
  getAuthToken (Imports := Fixture.imports) (js "u1") (js "secret")
  = Normal (js "token") /\
  matchingReturns (I := Fixture.imports) Fixture.unreadItem
    [Fixture.ruleOf "*" [mkRuleAction Archive []; mkRuleAction SendNotification []]]
  = true /\
  invokedCalls
    (snd (triggerActions (I := Fixture.imports) (js "u1")
            [Fixture.ruleOf "*"
               [mkRuleAction Archive []; mkRuleAction SendNotification []]]
            Fixture.unreadItem (js "api") (js "secret") []))
  = [ArchivePage (js "api") (js "token") (js "abc");
     SendNotificationCall (js "api") (js "token")
       (js "New page added to your feed")].
Proof.
  split; [reflexivity|]. split; [reflexivity|].
  exact (proj1 (@dispatch_joins_actions_fail_fast Fixture.imports (js "u1")
                  [Fixture.ruleOf "*"
                     [mkRuleAction Archive []; mkRuleAction SendNotification []]]
                  Fixture.unreadItem (js "api") (js "secret") (js "token") []
                  eq_refl eq_refl)).
Defined.

(** C1 as stated fails: a wildcard rule (for which the tokenizer is not
    consulted) archives and notifies; archiving fails at tick 1 and the
    notification succeeds at tick 5. Both actions are attempted, but the
    dispatch rejects at tick 1 with the failure of the archive call and
    carries no outcome of the notification. *)
Lemma one_failing_action_aborts_the_dispatch :
  let rules := [Fixture.ruleOf "*"
                  [mkRuleAction Archive []; mkRuleAction SendNotification []]] in
  triggerActions (I := Fixture.imports) (js "u1") rules Fixture.unreadItem
    (js "api") (js "secret") []
  = (mkPromise 1 (Throw (js "archive failed")),
     [TokenRequest (js "u1") (js "secret");
      ConsoleDebug (js "no search filters found");
      Invoke (ArchivePage (js "api") (js "token") (js "abc"));
      Invoke (SendNotificationCall (js "api") (js "token")
                (js "New page added to your feed"))]) /\
  run (I := Fixture.imports)
    (SendNotificationCall (js "api") (js "token")
       (js "New page added to your feed"))
  = mkPromise 5 (Normal (js "sent")) /\
  ~ reportsEveryOutcome (I := Fixture.imports) (js "u1") rules
      Fixture.unreadItem (js "api") (js "secret").
Proof.
  cbv zeta. split; [reflexivity|]. split; [reflexivity|].
  intros [Hlate _]. vm_compute in Hlate. lia.
Qed.

(** C4 on an unread item and a rule that labels. *)
Lemma preconditions_decide_capability_calls_witness :
  getAuthToken (Imports := Fixture.imports) (js "u1") (js "secret")
  = Normal (js "token") /\
  matchingReturns (I := Fixture.imports) Fixture.unreadItem
    [Fixture.ruleOf "is:unread" [mkRuleAction AddLabel [js "todo"]]] = true /\
  snd (triggerActions (I := Fixture.imports) (js "u1")
         [Fixture.ruleOf "is:unread" [mkRuleAction AddLabel [js "todo"]]]
         Fixture.unreadItem (js "api") (js "secret") [])
  = [] ++ TokenRequest (js "u1") (js "secret")
       :: flat_map (ruleEffects (I := Fixture.imports) (js "api") (js "token")
                      Fixture.unreadItem)
            [Fixture.ruleOf "is:unread" [mkRuleAction AddLabel [js "todo"]]].
Proof.
  split; [reflexivity|]. split; [reflexivity|].
  exact (proj1 (@preconditions_decide_capability_calls Fixture.imports
                  (js "u1")
                  [Fixture.ruleOf "is:unread" [mkRuleAction AddLabel [js "todo"]]]
                  Fixture.unreadItem (js "api") (js "secret") (js "token") []
                  eq_refl eq_refl)).
Defined.

(** C4 as stated fails: the item identifier is present but is the empty
    string; the archive action of a matching wildcard rule (for which the
    tokenizer is not consulted) is skipped with the diagnostic and no
    capability is called. *)
Lemma present_but_empty_identifier_is_skipped :
  data_id (Imports := Fixture.imports) Fixture.blankIdItem <> None /\
  matches (I := Fixture.imports) Fixture.blankIdItem
    (Fixture.ruleOf "*" [mkRuleAction Archive []]) = true /\
  triggerActions (I := Fixture.imports) (js "u1")
    [Fixture.ruleOf "*" [mkRuleAction Archive []]]
    Fixture.blankIdItem (js "api") (js "secret") []
  = (mkPromise 0 (Normal []),
     [TokenRequest (js "u1") (js "secret");
      ConsoleDebug (js "no search filters found");
      ConsoleLog (js "invalid data for archive action")]).
Proof.
  split; [discriminate|]. split; reflexivity.
Qed.

(** C5 with a token provider that refuses: nothing but the request happens
    and the refusal is what the caller gets. *)
Example refused_token_fails_the_dispatch :
  triggerActions (I := Fixture.denied) (js "u1")
    [Fixture.ruleOf "*" [mkRuleAction SendNotification []]]
    Fixture.unreadItem (js "api") (js "secret") []
  = (mkPromise 0 (Throw (js "denied")), [TokenRequest (js "u1") (js "secret")]).
Proof. reflexivity. Qed.

(** C10 on a matching rule whose label action has no params, next to a
    rule that does not match. *)
Lemma outcomes_are_one_per_invoked_capability_witness :
  exists out,
    snd (triggerActions (I := Fixture.imports) (js "u1")
           [Fixture.ruleOf "is:unread" [mkRuleAction AddLabel [];
                                        mkRuleAction MarkAsRead []];
            Fixture.ruleOf "is:read" [mkRuleAction SendNotification []]]
           Fixture.unreadItem (js "api") (js "secret") []) = [] ++ out /\
    invokedCalls out = [MarkPageAsRead (js "api") (js "token") (js "abc")].
Proof.
  destruct (@outcomes_are_one_per_invoked_capability Fixture.imports (js "u1")
              [Fixture.ruleOf "is:unread" [mkRuleAction AddLabel [];
                                           mkRuleAction MarkAsRead []];
               Fixture.ruleOf "is:read" [mkRuleAction SendNotification []]]
              Fixture.unreadItem (js "api") (js "secret") (js "token") []
              eq_refl eq_refl)
    as (out & Hout & Hcalls & _).
  exists out. split; [exact Hout | exact Hcalls].
Defined.

(** ** More about sanitization *)

Lemma whitespace_not_word (b : N) :
  isWhiteSpace b = true -> isWordChar b = false.
Proof.
  intros H. destruct (isWordChar b) eqn:W; [|reflexivity]. exfalso.
  unfold isWhiteSpace, isWordChar in *.
  repeat (rewrite orb_true_iff in H || rewrite andb_true_iff in H
          || rewrite N.leb_le in H || rewrite N.eqb_eq in H).
  repeat (rewrite orb_true_iff in W || rewrite andb_true_iff in W
          || rewrite N.leb_le in W || rewrite N.eqb_eq in W).
  lia.
Qed.

Lemma stray_not_word (a b c d : N) :
  stray a b c d = true ->
  isWordChar a = false /\ isWordChar b = false /\
  isWordChar c = false /\ isWordChar d = false.
Proof.
  unfold stray. rewrite !andb_true_iff, negb_true_iff, !N.eqb_eq.
  intros [[[Ha Hb] ->] ->]. repeat split; auto using whitespace_not_word.
Qed.

Lemma strayAt_not_word (a : N) (tl : jsstring) :
  isWordChar a = true -> strayAt (a :: tl) = false.
Proof.
  intros Ha. destruct tl as [|b [|c [|d rest]]]; try reflexivity.
  cbn [strayAt]. unfold stray. now rewrite Ha.
Qed.

(** X1. Sanitization only deletes, and only code units that are not word
    characters, four at a time: the text splits into kept segments, each
    followed by a block of four code units none of which is a word
    character, and a kept tail; the sanitized text is the kept segments and
    the tail, in order. Hence the word characters of the text survive in
    number and order, and the length drops by a multiple of four. *)
Theorem sanitization_deletes_only_non_word_blocks (s : jsstring) :
  (exists (segs : list (jsstring * jsstring)) (tail : jsstring),
      s = flat_map (fun km => fst km ++ snd km) segs ++ tail /\
      replace_stray s = flat_map fst segs ++ tail /\
      Forall (fun km => List.length (snd km) = 4 /\
                        forallb (fun c => negb (isWordChar c)) (snd km) = true)
        segs) /\
  filter isWordChar (replace_stray s) = filter isWordChar s /\
  exists k, List.length s = List.length (replace_stray s) + 4 * k.
Proof.
  pose proof (Strips_replace_stray s) as H.
  induction H as [|a tl r Hat _ [(segs & tail & Es & Er & Hb) [IHw [k IHl]]]
                  |a b c d rest r Hm _ [(segs & tail & Es & Er & Hb)
                                         [IHw [k IHl]]]].
  - split; [|split; [reflexivity | now exists 0]].
    exists [], []. repeat split. constructor.
  - split; [|split].
    + destruct segs as [|[keep cut] segs].
      * exists [], (a :: tail). cbn in *. subst. repeat split. constructor.
      * exists ((a :: keep, cut) :: segs), tail.
        cbn [flat_map fst snd app] in *. rewrite Es, Er.
        inversion Hb; subst. repeat split; try reflexivity.
        constructor; assumption.
    + cbn [filter]. now rewrite IHw.
    + exists k. cbn [List.length]. lia.
  - destruct (stray_not_word _ _ _ _ Hm) as (Ha & Hb' & Hc & Hd).
    split; [|split].
    + exists (([], [a; b; c; d]) :: segs), tail.
      cbn [flat_map fst snd app]. rewrite Es, Er. repeat split.
      constructor; [|exact Hb]. split; [reflexivity|].
      cbn [forallb snd]. now rewrite Ha, Hb', Hc, Hd.
    + cbn [filter]. now rewrite Ha, Hb', Hc, Hd.
    + exists (S k). cbn [List.length]. lia.
Qed.

Lemma occurs_quoteColon (s : jsstring) :
  occurs s = true -> quoteColon s = true.
Proof.
  induction s as [|a tl IH]; [discriminate|].
  cbn [occurs]. intros H. apply orb_true_iff in H as [H | H].
  - destruct tl as [|b [|c [|d rest]]]; try discriminate.
    cbn [strayAt] in H. unfold stray in H.
    rewrite !andb_true_iff in H. destruct H as [[_ Hc] Hd].
    cbn [quoteColon]. rewrite Hc, Hd. cbn [andb orb].
    now rewrite !orb_true_r.
  - specialize (IH H). destruct tl as [|b tl]; [discriminate|].
    change (quoteColon (a :: b :: tl))
      with ((N.eqb a QUOTE && N.eqb b COLON) || quoteColon (b :: tl)).
    rewrite IH. apply orb_true_r.
Qed.

(** X2. A filter text in which no double quote is directly followed by a
    colon is left unchanged by sanitization, and is parsed as it is. *)
Theorem text_without_quote_colon_is_unchanged
  {I : Imports} (f : jsstring) :
  quoteColon f = false ->
  replace_stray f = f /\ parseSearchFilter f = tokenized f.
Proof.
  intros H.
  assert (E : replace_stray f = f).
  { apply replace_stray_id. destruct (occurs f) eqn:O; [|reflexivity].
    apply occurs_quoteColon in O. congruence. }
  split; [exact E|]. now rewrite parseSearchFilter_tokenized, E.
Qed.

(** X2 on a quoted subscription filter. *)
Lemma text_without_quote_colon_is_unchanged_witness :
  quoteColon (js "subscription:" ++ [QUOTE] ++ js "Daily News" ++ [QUOTE])
  = false /\
  replace_stray (js "subscription:" ++ [QUOTE] ++ js "Daily News" ++ [QUOTE])
  = js "subscription:" ++ [QUOTE] ++ js "Daily News" ++ [QUOTE].
Proof.
  split; [reflexivity|].
  exact (proj1 (@text_without_quote_colon_is_unchanged Fixture.imports
                  (js "subscription:" ++ [QUOTE] ++ js "Daily News" ++ [QUOTE])
                  eq_refl)).
Defined.

(** ** More about the parser and the matcher *)

Section ParserCoverage.

Context {I : Imports}.

Lemma filterOf_none (k v : jsstring) :
  filterOf k v = None <-> existsb (str_eqb k) ruleKeywords = false.
Proof.
  unfold filterOf, ruleKeywords. cbn [existsb].
  destruct (str_eqb k (js "subscription")), (str_eqb k (js "content")),
    (str_eqb k (js "is")), (str_eqb k (js "type")); cbn;
    split; congruence.
Qed.

Lemma filterOf_valueOf (k v : jsstring) (p : SearchFilter) :
  filterOf k v = Some p -> valueOf p = v.
Proof.
  unfold filterOf.
  destruct (str_eqb k (js "subscription")); [now intros [= <-]|].
  destruct (str_eqb k (js "content")); [now intros [= <-]|].
  destruct (str_eqb k (js "is")); [now intros [= <-]|].
  destruct (str_eqb k (js "type")); [now intros [= <-] | discriminate].
Qed.

Lemma pushKeyword_unusable (k : SearchParserKeyWordOffset) :
  usable k = false -> pushKeyword [] k = [].
Proof.
  unfold usable, pushKeyword. destruct (value k) as [v|]; [|reflexivity].
  cbn [truthy_opt]. destruct (truthy v); [|reflexivity]. cbn [andb].
  intros H. apply filterOf_none with (v := v) in H. now rewrite H.
Qed.

Lemma pushKeyword_usable (k : SearchParserKeyWordOffset) :
  usable k = true ->
  exists p, pushKeyword [] k = [p] /\ value k = Some (valueOf p) /\
            filterOf (keyword k) (valueOf p) = Some p.
Proof.
  unfold usable, pushKeyword. destruct (value k) as [v|]; [|discriminate].
  cbn [truthy_opt]. destruct (truthy v); [|discriminate]. cbn [andb].
  intros H. destruct (filterOf (keyword k) v) as [p|] eqn:E.
  - exists p. rewrite (filterOf_valueOf _ _ E). now repeat split.
  - apply filterOf_none in E. congruence.
Qed.

Lemma tokenized_returns (text : jsstring) (r : SearchParserResult) :
  shortcut text = false ->
  parse text ruleOptions = Normal r ->
  tokenized text = Normal (collect r).
Proof.
  unfold tokenized, shortcut. intros -> ->. reflexivity.
Qed.

(** X3. The parser throws exactly when the sanitized text is neither
    empty nor the wildcard and the tokenizer throws on it, and then with
    the tokenizer's error. *)
Theorem parser_fails_only_with_the_tokenizer
  (f : jsstring) (e : Error) :
  parseSearchFilter f = Throw e <->
  shortcut (replace_stray f) = false /\
  parse (replace_stray f) ruleOptions = Throw e.
Proof.
  rewrite parseSearchFilter_tokenized. unfold tokenized, shortcut.
  destruct (negb (truthy (replace_stray f))
            || str_eqb (replace_stray f) (js "*")).
  - split; [discriminate | intros [H _]; discriminate].
  - destruct (parse (replace_stray f) ruleOptions) as [r|e'].
    + split; [discriminate | intros [_ H]; discriminate].
    + split; [intros [= ->]; now split | intros [_ [= ->]]; reflexivity].
Qed.

(** X4. When the tokenizer answers, the parser builds one predicate for
    each usable keyword token of the answer and for nothing else, in token
    order; each predicate is the one the switch gives for the token's
    keyword and carries the token's value unchanged. *)
Theorem predicates_follow_the_usable_tokens
  (f : jsstring) (r : SearchParserResult) :
  shortcut (replace_stray f) = false ->
  parse (replace_stray f) ruleOptions = Normal r ->
  exists fs,
    parseSearchFilter f = Normal fs /\
    Forall2 (fun k p => value k = Some (valueOf p) /\
                        filterOf (keyword k) (valueOf p) = Some p)
      (filter usable (keywordOffsets (tokens r))) fs.
Proof.
  intros Hs Hp. exists (collect r). split.
  - rewrite parseSearchFilter_tokenized. now apply tokenized_returns.
  - rewrite collect_tokens.
    induction (keywordOffsets (tokens r)) as [|k ks IH]; [constructor|].
    cbn [filter flat_map]. destruct (usable k) eqn:U.
    + destruct (pushKeyword_usable k U) as (p & -> & Hv & Hf).
      cbn [app]. now constructor.
    + now rewrite (pushKeyword_unusable k U).
Qed.

(** X5. When no keyword token of the tokenizer's answer is usable (free
    text, keywords outside the four, missing or empty values), the filter
    parses to no predicate and the matcher answers true for every event,
    printing its diagnostic. *)
Theorem filter_without_usable_token_matches_everything
  (f : jsstring) (d : PubSubData) (w : World) (r : SearchParserResult) :
  parse (replace_stray f) ruleOptions = Normal r ->
  forallb (fun k => negb (usable k)) (keywordOffsets (tokens r)) = true ->
  parseSearchFilter f = Normal [] /\
  isValidData f d w
  = (Normal true, w ++ [ConsoleDebug (js "no search filters found")]).
Proof.
  intros Hp Hu.
  assert (E : parseSearchFilter f = Normal []).
  { rewrite parseSearchFilter_tokenized.
    destruct (shortcut (replace_stray f)) eqn:Hs.
    - unfold tokenized. unfold shortcut in Hs. now rewrite Hs.
    - rewrite (tokenized_returns _ Hs Hp), collect_tokens. f_equal.
      induction (keywordOffsets (tokens r)) as [|k ks IH]; [reflexivity|].
      cbn [forallb] in Hu. apply andb_true_iff in Hu as [Hk Hks].
      apply negb_true_iff in Hk. cbn [flat_map].
      now rewrite (pushKeyword_unusable k Hk), IH. }
  split; [exact E|]. now rewrite isValidData_unfold, E.
Qed.

(** X6. The switch of the parser builds a predicate exactly for the four
    keywords the tokenizer is asked to recognise, compared as they are
    spelled, and the predicate carries the value it is given. *)
Theorem switch_covers_exactly_the_keywords (k v : jsstring) :
  (exists p, filterOf k v = Some p /\ valueOf p = v) <-> In k ruleKeywords.
Proof.
  assert (Hin : In k ruleKeywords <-> existsb (str_eqb k) ruleKeywords = true).
  { rewrite existsb_exists. split.
    - intros H. exists k. split; [exact H | apply str_eqb_refl].
    - intros (x & Hx & E). apply str_eqb_eq in E. now subst x. }
  rewrite Hin. split.
  - intros (p & Hp & _).
    destruct (existsb (str_eqb k) ruleKeywords) eqn:E; [reflexivity|].
    apply (filterOf_none k v) in E. congruence.
  - intros H. destruct (filterOf k v) as [p|] eqn:E.
    + exists p. split; [reflexivity | eapply filterOf_valueOf; eassumption].
    + apply filterOf_none in E. congruence.
Qed.

Lemma every_first_decisive (pre post : list SearchFilter) (p : SearchFilter)
  (d : PubSubData) :
  Forall (fun q => isValid q d = Normal true) pre ->
  isValid p d <> Normal true ->
  every (pre ++ p :: post) d = isValid p d.
Proof.
  intros Hpre Hp. induction Hpre as [|q pre Hq _ IH]; cbn [app every].
  - destruct (isValid p d) as [[|]|e]; congruence.
  - now rewrite Hq.
Qed.

(** X7. The matcher's answer is that of the first predicate that does not
    answer true: if it answers false the matcher answers false, if it throws
    the matcher throws, the predicates after it are not consulted, and
    nothing is printed. *)
Theorem matcher_stops_at_the_first_decisive_predicate
  (f : jsstring) (d : PubSubData) (w : World)
  (pre post : list SearchFilter) (p : SearchFilter) :
  parseSearchFilter f = Normal (pre ++ p :: post) ->
  Forall (fun q => isValid q d = Normal true) pre ->
  isValid p d <> Normal true ->
  isValidData f d w = (isValid p d, w).
Proof.
  intros E Hpre Hp. rewrite isValidData_unfold, E.
  rewrite <- (@every_first_decisive pre post p d Hpre Hp).
  destruct pre; reflexivity.
Qed.

End ParserCoverage.

(** X4 on the filter [is:unread]. *)
Lemma predicates_follow_the_usable_tokens_witness :
  exists fs,
    parseSearchFilter (I := Fixture.imports) (js "is:unread") = Normal fs /\
    Forall2 (fun k p => value k = Some (valueOf p) /\
                        filterOf (keyword k) (valueOf p) = Some p)
      [mkKeyWordOffset (js "is") (Some (js "unread")) 0 9] fs.
Proof.
  exact (@predicates_follow_the_usable_tokens Fixture.imports (js "is:unread")
           (mkResult (Some [KeyWordOffset
              (mkKeyWordOffset (js "is") (Some (js "unread")) 0 9)]))
           eq_refl eq_refl).
Defined.

(** X5 on a filter with a keyword outside the four. *)
Lemma filter_without_usable_token_matches_everything_witness :
  parseSearchFilter (I := Fixture.imports) (js "author:bob") = Normal [] /\
  isValidData (I := Fixture.imports) (js "author:bob") Fixture.readItem []
  = (Normal true, [] ++ [ConsoleDebug (js "no search filters found")]).
Proof.
  exact (@filter_without_usable_token_matches_everything Fixture.imports
           (js "author:bob") Fixture.readItem []
           (mkResult (Some [TextOffset (mkTextOffset (js "author:bob") 0 10)]))
           eq_refl eq_refl).
Defined.

(** X7 on a content filter whose predicate throws. *)
Lemma matcher_stops_at_the_first_decisive_predicate_witness :
  isValidData (I := Fixture.fragile) (js "content:x") Fixture.readItem []
  = (Throw (js "no content"), []).
Proof.
  apply (@matcher_stops_at_the_first_decisive_predicate Fixture.fragile
           (js "content:x") Fixture.readItem [] [] []
           (ContentFilter (js "x"))).
  - reflexivity.
  - constructor.
  - discriminate.
Defined.

(** ** More about the dispatcher *)

Section DispatcherCoverage.

Context {I : Imports}.

Lemma skipn_length_app {A : Type} (l out : list A) :
  skipn (List.length l) (l ++ out) = out.
Proof. induction l as [|x l IH]; [reflexivity | exact IH]. Qed.

Lemma ruleCallback_throws (api tok : jsstring) (d : PubSubData) (r : Rule)
  (w : World) (e : Error) :
  decision d r = Throw e -> ruleCallback api tok d r w = (Throw e, w).
Proof.
  unfold decision. intros E. unfold ruleCallback, bind.
  rewrite isValidData_unfold in *.
  destruct (parseSearchFilter (rule_filter r)) as [[|p fs]|e'];
    cbn [fst] in E.
  - discriminate.
  - now rewrite E.
  - now injection E as ->.
Qed.

Lemma mapM_rules_prefix (api tok : jsstring) (d : PubSubData)
  (rules : list Rule) (w : World) :
  exists n,
    n <= List.length rules /\
    snd (mapM (ruleCallback api tok d) rules w)
    = w ++ flat_map (ruleEffects api tok d) (firstn n rules).
Proof.
  revert w. induction rules as [|r rules IH]; intros w; cbn [mapM].
  - exists 0. split; [reflexivity|]. unfold ret. cbn. now rewrite app_nil_r.
  - unfold bind at 1. destruct (decision d r) as [b|e] eqn:E.
    + rewrite (@ruleCallback_returns _ api tok d r w b E). unfold bind.
      destruct (IH (w ++ ruleEffects api tok d r)) as (n & Hn & Hw).
      exists (S n). split; [cbn [List.length]; lia|].
      cbn [firstn flat_map]. rewrite app_assoc, <- Hw.
      now destruct (mapM (ruleCallback api tok d) rules
                      (w ++ ruleEffects api tok d r)) as [[ys|e] w2].
    + rewrite (@ruleCallback_throws api tok d r w e E).
      exists 0. split; [lia|]. cbn. now rewrite app_nil_r.
Qed.

Lemma mapM_rules_throw (api tok : jsstring) (d : PubSubData)
  (pre post : list Rule) (r : Rule) (e : Error) (w : World) :
  matchingReturns d pre = true ->
  decision d r = Throw e ->
  mapM (ruleCallback api tok d) (pre ++ r :: post) w
  = (Throw e, w ++ flat_map (ruleEffects api tok d) pre).
Proof.
  revert w. induction pre as [|q pre IH]; intros w Hpre Hr;
    cbn [app mapM flat_map].
  - unfold bind. rewrite (@ruleCallback_throws api tok d r w e Hr).
    now rewrite app_nil_r.
  - cbn [matchingReturns forallb] in Hpre.
    apply andb_true_iff in Hpre as [Hq Hpre].
    destruct (decision d q) as [b|e'] eqn:E; [|discriminate].
    unfold bind at 1. rewrite (@ruleCallback_returns _ api tok d q w b E).
    unfold bind. rewrite (IH _ Hpre Hr). now rewrite app_assoc.
Qed.

Lemma dispatchEffects_spec (u : jsstring) (rules : list Rule)
  (d : PubSubData) (api s : jsstring) (w : World) :
  snd (triggerActions u rules d api s w)
  = w ++ dispatchEffects u rules d api s w /\
  exists n,
    n <= List.length rules /\
    dispatchEffects u rules d api s w
    = TokenRequest u s ::
      match getAuthToken u s with
      | Normal tok => flat_map (ruleEffects api tok d) (firstn n rules)
      | Throw _ => []
      end.
Proof.
  unfold dispatchEffects.
  destruct (getAuthToken u s) as [tok|e] eqn:Htok.
  - destruct (mapM_rules_prefix api tok d rules (w ++ [TokenRequest u s]))
      as (n & Hn & Hw).
    assert (E : snd (triggerActions u rules d api s w)
                = w ++ TokenRequest u s
                       :: flat_map (ruleEffects api tok d) (firstn n rules)).
    { unfold triggerActions, async, bind at 1, perform.
      unfold bind at 1, lift. rewrite Htok. unfold bind.
      destruct (mapM (ruleCallback api tok d) rules (w ++ [TokenRequest u s]))
        as [[ps|e] w1]; cbn [snd] in *; subst w1; now rewrite <- app_assoc. }
    rewrite E, skipn_length_app. split; [reflexivity|].
    exists n. now split.
  - rewrite (@triggerActions_denied _ u rules d api s e w Htok). cbn [snd].
    rewrite skipn_length_app. split; [reflexivity|].
    exists 0. split; [lia | reflexivity].
Qed.

Lemma dispatch_calls (u : jsstring) (rules : list Rule)
  (d : PubSubData) (api s : jsstring) (w : World) :
  exists n,
    n <= List.length rules /\
    invokedCalls (dispatchEffects u rules d api s w)
    = match getAuthToken u s with
      | Normal tok => eligibleCalls api tok d (firstn n rules)
      | Throw _ => []
      end.
Proof.
  destruct (dispatchEffects_spec u rules d api s w) as (_ & n & Hn & E).
  exists n. split; [exact Hn|]. rewrite E.
  destruct (getAuthToken u s) as [tok|e]; [|reflexivity].
  change (TokenRequest u s :: ?l) with ([TokenRequest u s] ++ l).
  rewrite invokedCalls_app. apply invokedCalls_rules.
Qed.

Lemma eligibleCalls_Forall (api tok : jsstring) (d : PubSubData)
  (P : CapCall -> Prop) (rules : list Rule) :
  (forall a c, eligibleCall api tok d a = Some c -> P c) ->
  Forall P (eligibleCalls api tok d rules).
Proof.
  intros H. unfold eligibleCalls.
  induction rules as [|r rules IH]; [constructor|].
  cbn [flat_map]. apply Forall_app. split; [|exact IH].
  destruct (matches d r); [|constructor].
  induction (rule_actions r) as [|a acts IHa]; [constructor|].
  cbn [flat_map]. apply Forall_app. split; [|exact IHa].
  destruct (eligibleCall api tok d a) as [c|] eqn:E; repeat constructor.
  now apply (H a).
Qed.

Lemma eligibleCalls_length (api tok : jsstring) (d : PubSubData)
  (rules : list Rule) :
  List.length (eligibleCalls api tok d rules)
  <= List.length (flat_map rule_actions rules).
Proof.
  unfold eligibleCalls. induction rules as [|r rules IH]; [reflexivity|].
  cbn [flat_map]. rewrite !length_app.
  assert (H : List.length
                (if matches d r
                 then flat_map (fun a => match eligibleCall api tok d a with
                                         | Some c => [c]
                                         | None => []
                                         end) (rule_actions r)
                 else [])
              <= List.length (rule_actions r)).
  { destruct (matches d r); [|cbn; lia].
    induction (rule_actions r) as [|a acts IHa]; [reflexivity|].
    cbn [flat_map]. rewrite length_app.
    destruct (eligibleCall api tok d a); cbn [List.length]; lia. }
  lia.
Qed.

Lemma flat_map_firstn_length {A B : Type} (f : A -> list B) (n : nat)
  (l : list A) :
  List.length (flat_map f (firstn n l)) <= List.length (flat_map f l).
Proof.
  revert n. induction l as [|x l IH]; intros [|n]; cbn [firstn flat_map];
    rewrite ?length_app; cbn [List.length]; try lia.
  specialize (IH n). lia.
Qed.

(** X8. When the token is obtained and matching throws for a rule while
    it returned for all the rules before it, the dispatch rejects at once
    with that error; the effects of the rules before it, capability calls
    included, have been performed in full, and no rule after it is
    evaluated. *)
Theorem throwing_rule_aborts_the_dispatch
  (u : jsstring) (pre post : list Rule) (r : Rule) (d : PubSubData)
  (api s tok : jsstring) (e : Error) (w : World) :
  getAuthToken u s = Normal tok ->
  matchingReturns d pre = true ->
  decision d r = Throw e ->
  triggerActions u (pre ++ r :: post) d api s w
  = (mkPromise 0 (Throw e),
     w ++ TokenRequest u s :: flat_map (ruleEffects api tok d) pre).
Proof.
  intros Htok Hpre Hr. unfold triggerActions, async, bind at 1, perform.
  unfold bind at 1, lift. rewrite Htok. unfold bind.
  rewrite (@mapM_rules_throw api tok d pre post r e _ Hpre Hr).
  now rewrite <- app_assoc.
Qed.

(** X9. For an event whose item identifier is missing or empty, the only
    capability a dispatch ever calls is the notification, with the
    dispatch's endpoint, the token obtained and the fixed text. *)
Theorem event_without_identifier_only_notifies
  (u : jsstring) (rules : list Rule) (d : PubSubData) (api s : jsstring)
  (w : World) :
  truthy_opt (data_id d) = false ->
  Forall (fun c => exists tok,
                     getAuthToken u s = Normal tok /\
                     c = SendNotificationCall api tok
                           (js "New page added to your feed"))
    (invokedCalls (dispatchEffects u rules d api s w)).
Proof.
  intros Hid. destruct (dispatch_calls u rules d api s w) as (n & _ & ->).
  destruct (getAuthToken u s) as [tok|e]; [|constructor].
  apply eligibleCalls_Forall. intros a c Hc. exists tok. split; [reflexivity|].
  unfold eligibleCall in Hc.
  destruct (action_type a); destruct (data_id d) as [[|x i]|];
    try discriminate; now injection Hc as <-.
Qed.

(** X10. Every capability call of a dispatch carries the dispatch's
    endpoint and the token obtained; page calls target the event's own
    identifier, which is never empty; label calls carry a non-empty list of
    labels; notifications carry the fixed text. *)
Theorem capability_calls_are_well_formed
  (u : jsstring) (rules : list Rule) (d : PubSubData) (api s : jsstring)
  (w : World) :
  Forall (fun c => exists tok,
                     getAuthToken u s = Normal tok /\
                     wellFormedCall api tok d c)
    (invokedCalls (dispatchEffects u rules d api s w)).
Proof.
  destruct (dispatch_calls u rules d api s w) as (n & _ & ->).
  destruct (getAuthToken u s) as [tok|e]; [|constructor].
  apply eligibleCalls_Forall. intros a c Hc. exists tok. split; [reflexivity|].
  unfold eligibleCall in Hc. unfold wellFormedCall.
  destruct (action_type a); destruct (data_id d) as [[|x i]|];
    try discriminate.
  - destruct (action_params a) as [|l ls]; [discriminate|].
    injection Hc as <-. cbn. repeat split; discriminate.
  - injection Hc as <-. cbn. repeat split; discriminate.
  - injection Hc as <-. cbn. repeat split; discriminate.
  - injection Hc as <-. cbn. now repeat split.
  - injection Hc as <-. cbn. now repeat split.
  - injection Hc as <-. cbn. now repeat split.
Qed.

(** X11. A dispatch never makes more capability calls than the rules have
    actions, whatever matches, fails or throws. *)
Theorem at_most_one_call_per_action
  (u : jsstring) (rules : list Rule) (d : PubSubData) (api s : jsstring)
  (w : World) :
  List.length (invokedCalls (dispatchEffects u rules d api s w))
  <= List.length (flat_map rule_actions rules).
Proof.
  destruct (dispatch_calls u rules d api s w) as (n & _ & ->).
  destruct (getAuthToken u s) as [tok|e]; [|cbn; lia].
  pose proof (eligibleCalls_length api tok d (firstn n rules)).
  pose proof (flat_map_firstn_length rule_actions n rules). lia.
Qed.

End DispatcherCoverage.

(** X8 with a wildcard rule before a rule whose content predicate throws. *)
Lemma throwing_rule_aborts_the_dispatch_witness :
  triggerActions (I := Fixture.fragile) (js "u1")
    ([Fixture.ruleOf "*" [mkRuleAction MarkAsRead []]]
     ++ Fixture.ruleOf "content:x" [mkRuleAction SendNotification []]
     :: [Fixture.ruleOf "*" [mkRuleAction SendNotification []]])
    Fixture.unreadItem (js "api") (js "secret") []
  = (mkPromise 0 (Throw (js "no content")),
     [] ++ TokenRequest (js "u1") (js "secret")
        :: flat_map (ruleEffects (I := Fixture.fragile) (js "api") (js "token")
                       Fixture.unreadItem)
             [Fixture.ruleOf "*" [mkRuleAction MarkAsRead []]]).
Proof.
  apply (@throwing_rule_aborts_the_dispatch Fixture.fragile); reflexivity.
Defined.

(** X9 on an event with an empty identifier and a rule that archives,
    labels and notifies. *)
Lemma event_without_identifier_only_notifies_witness :
  Forall (fun c => exists tok,
                     getAuthToken (Imports := Fixture.imports)
                       (js "u1") (js "secret") = Normal tok /\
                     c = SendNotificationCall (js "api") tok
                           (js "New page added to your feed"))
    (invokedCalls
       (dispatchEffects (I := Fixture.imports) (js "u1")
          [Fixture.ruleOf "*" [mkRuleAction Archive [];
                               mkRuleAction AddLabel [js "todo"];
                               mkRuleAction SendNotification []]]
          Fixture.blankIdItem (js "api") (js "secret") [])).
Proof.
  apply (@event_without_identifier_only_notifies Fixture.imports).
  reflexivity.
Defined.

(** ** Extending a batch of rules *)

Section BatchCoverage.

Context {I : Imports}.

Lemma mapM_app {A B : Type} (f : A -> M B) (l1 l2 : list A) (w : World) :
  mapM f (l1 ++ l2) w =
  match mapM f l1 w with
  | (Normal ys, w1) =>
      match mapM f l2 w1 with
      | (Normal zs, w2) => (Normal (ys ++ zs), w2)
      | (Throw e, w2) => (Throw e, w2)
      end
  | (Throw e, w1) => (Throw e, w1)
  end.
Proof.
  revert w. induction l1 as [|x l1 IH]; intros w; cbn [app mapM].
  - unfold ret. now destruct (mapM f l2 w) as [[zs|e] w2].
  - unfold bind at 1 3. destruct (f x w) as [[y|e] w0]; [|reflexivity].
    unfold bind. rewrite IH.
    destruct (mapM f l1 w0) as [[ys|e] w1]; unfold ret; cbv beta iota;
      [|reflexivity].
    now destruct (mapM f l2 w1) as [[zs|e] w2].
Qed.

(** X12. Appending rules to a batch only appends effects: what a dispatch
    does for a batch is the beginning of what it does for the batch followed
    by further rules, so later rules neither change nor reorder the effects
    of earlier ones. *)
Theorem later_rules_only_append_effects
  (u : jsstring) (rules more : list Rule) (d : PubSubData) (api s : jsstring)
  (w : World) :
  exists further,
    dispatchEffects u (rules ++ more) d api s w
    = dispatchEffects u rules d api s w ++ further.
Proof.
  unfold dispatchEffects, triggerActions, async, bind at 1 3, perform.
  unfold bind at 1 3, lift.
  destruct (getAuthToken u s) as [tok|e];
    [|exists []; now rewrite app_nil_r].
  unfold bind. rewrite mapM_app.
  destruct (mapM_rules_prefix api tok d rules (w ++ [TokenRequest u s]))
    as (n & _ & E1).
  destruct (mapM (ruleCallback api tok d) rules (w ++ [TokenRequest u s]))
    as [[ys|e] w1]; cbn [snd] in E1; subst w1.
  - destruct (mapM_rules_prefix api tok d more
                ((w ++ [TokenRequest u s])
                 ++ flat_map (ruleEffects api tok d) (firstn n rules)))
      as (m & _ & E2).
    exists (flat_map (ruleEffects api tok d) (firstn m more)).
    destruct (mapM (ruleCallback api tok d) more _) as [[zs|e] w2];
      cbn [snd] in *; subst w2; unfold ret; cbn [snd];
      rewrite <- !app_assoc, !skipn_length_app; now rewrite <- app_assoc.
  - exists []. now rewrite app_nil_r.
Qed.

End BatchCoverage.

(** ** The result type resolvers *)

(** X13. The objects built by [resultResolveTypeResolver] never collide:
    two resolver names give the same key only if they are the same name,
    and for one name the type chosen when error codes are present (an empty
    list included), the type chosen when they are absent and the key are
    three different strings. *)
Theorem result_type_names_never_collide
  (n1 n2 : jsstring) (codes : list jsstring) :
  (fst (Resolvers.resultResolveTypeResolver n1)
   = fst (Resolvers.resultResolveTypeResolver n2) <-> n1 = n2) /\
  snd (Resolvers.resultResolveTypeResolver n1) (Some codes) = n1 ++ js "Error" /\
  snd (Resolvers.resultResolveTypeResolver n1) None = n1 ++ js "Success" /\
  n1 ++ js "Error" <> n1 ++ js "Success" /\
  n1 ++ js "Error" <> fst (Resolvers.resultResolveTypeResolver n1) /\
  n1 ++ js "Success" <> fst (Resolvers.resultResolveTypeResolver n1).
Proof.
  cbn [Resolvers.resultResolveTypeResolver Resolvers.resolveType fst snd].
  repeat split.
  - apply app_inv_tail.
  - now intros ->.
  - intros H. apply app_inv_head in H. discriminate.
  - intros H. apply app_inv_head in H. discriminate.
  - intros H. apply app_inv_head in H. discriminate.
Qed.

(** ** Values of predicates *)

(** X14. The parser never builds a predicate on an empty value: every
    predicate of a parsed filter carries a non-empty string. *)
Theorem predicates_never_carry_an_empty_value
  {I : Imports} (f : jsstring) (fs : list SearchFilter) :
  parseSearchFilter f = Normal fs ->
  Forall (fun p => valueOf p <> []) fs.
Proof.
  rewrite parseSearchFilter_tokenized. unfold tokenized.
  destruct (negb (truthy (replace_stray f))
            || str_eqb (replace_stray f) (js "*")).
  - intros [= <-]. constructor.
  - destruct (parse (replace_stray f) ruleOptions) as [r|e]; [|discriminate].
    intros [= <-]. rewrite collect_tokens.
    induction (keywordOffsets (tokens r)) as [|k ks IH]; [constructor|].
    cbn [flat_map]. apply Forall_app. split; [|exact IH].
    destruct (usable k) eqn:U.
    + destruct (pushKeyword_usable k U) as (p & -> & Hv & _).
      constructor; [|constructor]. intros E. rewrite E in Hv.
      unfold usable in U. rewrite Hv in U. discriminate.
    + rewrite (pushKeyword_unusable k U). constructor.
Qed.

(** X14 on the filter [is:unread]. *)
Lemma predicates_never_carry_an_empty_value_witness :
  Forall (fun p => valueOf p <> []) [ReadFilter (js "unread")].
Proof.
  apply (@predicates_never_carry_an_empty_value Fixture.imports
           (js "is:unread")).
  reflexivity.
Defined.
